(** * Credit-based document scanner: the similarity-scan subsystem

    A shallow embedding of the Express/SQLite backend (the route handlers of
    the server file and the schema of [database/database.js]) and the
    properties of its similarity metric, its scan route, its credit ledger and
    its credit-request queue.

    Conventions of the embedding:
    - a JavaScript string is a Rocq [string]; one character of the model
      stands for one UTF-16 code unit, so [String.length] is [.length];
    - SQLite [INTEGER] columns and JavaScript integers are [Z];
    - the number computed by [calculateSimilarity] is an exact rational
      ([Q]) in place of an IEEE double;
    - a table with keyed access is a [gmap] from its primary key, together
      with the [AUTOINCREMENT] counter; the documents table, whose row order
      and duplicates are observable in a scan, is a list in rowid order;
    - every [await] of a handler is one atomic step on the shared state. *)

From Stdlib Require Import ZArith QArith Qround Lia.
From Stdlib Require Import Floats.PrimFloat Numbers.Cyclic.Int63.Uint63.
From stdpp Require Import gmap strings list pretty.

Set Default Proof Using "Type".

(** ** The edit distance behind [levenshtein.get] *)

Module Levenshtein.
Section Distance.
Context {A : Type} `{EqDecision A}.

Definition subst_cost (x y : A) : nat := if decide (x = y) then 0 else 1.

Definition min3 (i j k : nat) : nat := i `min` (j `min` k).

(** The [editDistance] of the spec, in the spec's words: the classic
    single-character insertion/deletion/substitution distance, as the
    recurrence on the first characters of the two texts. *)
Fixpoint editDistance (a b : list A) : nat :=
  match a with
  | [] => length b
  | x :: a' =>
      (fix inner (b : list A) : nat :=
         match b with
         | [] => S (length a')
         | y :: b' =>
             min3 (S (editDistance a' b)) (S (inner b'))
                  (subst_cost x y + editDistance a' b')
         end) b
  end.

Fixpoint suffixes (b : list A) : list (list A) :=
  match b with
  | [] => [[]]
  | _ :: b' => b :: suffixes b'
  end.

(** The row of [x :: a] from the row of [a]; a row lists the distance to
    every suffix of [b], the whole of [b] first. *)
Fixpoint next_row (x : A) (b : list A) (prev : list nat) : list nat :=
  match b, prev with
  | y :: b', p :: prev' =>
      let r := next_row x b' prev' in
      min3 (S p) (S (hd 0 r)) (subst_cost x y + hd 0 prev') :: r
  | _, _ => [S (hd 0 prev)]
  end.

Fixpoint row (a b : list A) : list nat :=
  match a with
  | [] => length <$> suffixes b
  | x :: a' => next_row x b (row a' b)
  end.

(** Modelled from the spec: [levenshtein.get] belongs to the npm package
    [fast-levenshtein], which [calculateSimilarity] calls and which is not
    part of the repository. Section 4.1 asks for the edit distance computed
    with one rolling row in place of the full matrix; this is that
    computation. *)
Definition get (a b : list A) : nat := hd 0 (row a b).

End Distance.
End Levenshtein.

(** ** The similarity metric *)

Definition chars (s : string) : list Ascii.ascii := String.list_ascii_of_string s.

(** [calculateSimilarity(text1, text2)]. *)
Definition calculateSimilarity (text1 text2 : string) : Q :=
  if bool_decide (String.length text1 = 0) || bool_decide (String.length text2 = 0)
  then 0%Q
  else
    let maxLength := String.length text1 `max` String.length text2 in
    let distance := Levenshtein.get (chars text1) (chars text2) in
    (1 - inject_Z (Z.of_nat distance) / inject_Z (Z.of_nat maxLength))%Q.

(** The threshold test [similarity > 0.6] of the scan loop. *)
Definition above_threshold (similarity : Q) : bool :=
  negb (Qle_bool similarity (6 # 10)).

(** The same two computations on binary64 doubles, as JavaScript carries
    them out; the second literal is the double that [0.6] denotes. They
    serve to check the boundary cases of the exact model above. *)
Definition to_double (n : nat) : float :=
  PrimFloat.of_uint63 (Uint63.of_Z (Z.of_nat n)).

Definition calculateSimilarity_double (text1 text2 : string) : float :=
  if bool_decide (String.length text1 = 0) || bool_decide (String.length text2 = 0)
  then 0%float
  else
    let maxLength := String.length text1 `max` String.length text2 in
    let distance := Levenshtein.get (chars text1) (chars text2) in
    PrimFloat.sub 1 (PrimFloat.div (to_double distance) (to_double maxLength)).

Definition above_threshold_double (similarity : float) : bool :=
  PrimFloat.ltb 0x1.3333333333333p-1 similarity.

(** [(similarity * 100).toFixed(2) + '%'], on the exact score: the score in
    hundredths of a percent, rounded half up, printed with two decimals. *)
Definition hundredths (similarity : Q) : Z :=
  let q := (similarity * 100 * 100 + (1 # 2))%Q in
  Z.div (Qnum q) (Zpos (Qden q)).

Definition toFixed2 (h : Z) : string :=
  pretty (Z.div h 100) +:+ "." +:+
  pretty (Z.div (Z.modulo h 100) 10) +:+ pretty (Z.modulo h 10).

Definition percent (similarity : Q) : string :=
  toFixed2 (hundredths similarity) +:+ "%".

(** ** The database, the upload directory and the console *)

Inductive Role := user | admin.
Inductive Status := pending | approved | rejected.

Global Instance Role_eq_dec : EqDecision Role.
Proof. solve_decision. Defined.
Global Instance Status_eq_dec : EqDecision Status.
Proof. solve_decision. Defined.

(** A row of [users] (the key [id] is the key of the table). *)
Record UserRow := {
  username : string;
  email : string;
  password : string;
  role : Role;
  credits : Z
}.

(** A row of [credit_requests]. *)
Record CreditRequestRow := {
  request_userId : Z;
  amount : Z;
  status : Status
}.

(** A row of [documents]. *)
Record DocumentRow := {
  document_id : Z;
  document_userId : Z;
  filePath : string;
  fileName : string
}.

(** What [SELECT filePath, fileName FROM documents] yields for a row. *)
Record DocMeta := {
  meta_filePath : string;
  meta_fileName : string
}.

(** An entry of the [matches] array of a scan. *)
Record Match := {
  match_fileName : string;
  match_similarity : string
}.

(** Lines written by [console.log] and [console.error]. *)
Inductive LogLine :=
  | LogComparing (newName existingName : string) (similarity : Q)
  | LogReadError (path : string)
  | LogMatches (matches : list Match)
  | LogError
  | LogResetStart
  | LogResetDone (changes : nat).

(** The state the handlers share. [faulty] is the set of paths on which the
    operating system answers a read or a write with an I/O error. *)
Record World := {
  users : gmap Z UserRow;
  users_seq : Z;
  credit_requests : gmap Z CreditRequestRow;
  credit_requests_seq : Z;
  documents : list DocumentRow;
  files : gmap string string;
  faulty : gset string;
  console : list LogLine
}.

Definition with_users (f : gmap Z UserRow → gmap Z UserRow) (w : World) : World :=
  {| users := f (users w); users_seq := users_seq w;
     credit_requests := credit_requests w;
     credit_requests_seq := credit_requests_seq w;
     documents := documents w; files := files w; faulty := faulty w;
     console := console w |}.

Definition with_requests
    (f : gmap Z CreditRequestRow → gmap Z CreditRequestRow) (w : World) : World :=
  {| users := users w; users_seq := users_seq w;
     credit_requests := f (credit_requests w);
     credit_requests_seq := credit_requests_seq w;
     documents := documents w; files := files w; faulty := faulty w;
     console := console w |}.

Definition with_documents
    (f : list DocumentRow → list DocumentRow) (w : World) : World :=
  {| users := users w; users_seq := users_seq w;
     credit_requests := credit_requests w;
     credit_requests_seq := credit_requests_seq w;
     documents := f (documents w); files := files w; faulty := faulty w;
     console := console w |}.

Definition with_files (f : gmap string string → gmap string string) (w : World) : World :=
  {| users := users w; users_seq := users_seq w;
     credit_requests := credit_requests w;
     credit_requests_seq := credit_requests_seq w;
     documents := documents w; files := f (files w); faulty := faulty w;
     console := console w |}.

Definition with_console (f : list LogLine → list LogLine) (w : World) : World :=
  {| users := users w; users_seq := users_seq w;
     credit_requests := credit_requests w;
     credit_requests_seq := credit_requests_seq w;
     documents := documents w; files := files w; faulty := faulty w;
     console := f (console w) |}.

(** [console.log(line)] / [console.error(line)]. *)
Definition log (line : LogLine) (w : World) : World :=
  with_console (λ lines, lines ++ [line]) w.

Definition set_credits (c : Z) (u : UserRow) : UserRow :=
  {| username := username u; email := email u; password := password u;
     role := role u; credits := c |}.

Definition set_status (s : Status) (r : CreditRequestRow) : CreditRequestRow :=
  {| request_userId := request_userId r; amount := amount r; status := s |}.

(** *** Queries *)

(** [SELECT credits FROM users WHERE id = ?] *)
Definition selectCredits (id : Z) (w : World) : option Z :=
  credits <$> users w !! id.

(** [UPDATE users SET credits = credits - 1 WHERE id = ?] *)
Definition deductCredit (id : Z) (w : World) : World :=
  with_users (alter (λ u, set_credits (credits u - 1) u) id) w.

(** [UPDATE users SET credits = credits + ? WHERE id = ?] *)
Definition grant (amt id : Z) (w : World) : World :=
  with_users (alter (λ u, set_credits (credits u + amt) u) id) w.

(** [UPDATE users SET credits = 20 WHERE role = 'user'] *)
Definition resetAll (w : World) : World :=
  with_users
    (fmap (λ u, if decide (role u = user) then set_credits 20 u else u)) w.

(** [INSERT INTO documents (userId, filePath, fileName) VALUES (?, ?, ?)] *)
Definition insertDocument (uid : Z) (path name : string) (w : World) : World :=
  with_documents
    (λ docs, docs ++ [{| document_id := Z.of_nat (length docs) + 1;
                         document_userId := uid;
                         filePath := path; fileName := name |}]) w.

Definition meta_of (d : DocumentRow) : DocMeta :=
  {| meta_filePath := filePath d; meta_fileName := fileName d |}.

(** [SELECT filePath, fileName FROM documents WHERE filePath != ?] *)
Definition listExcept (key : string) (w : World) : list DocMeta :=
  meta_of <$> filter (λ d, filePath d ≠ key) (documents w).

(** [SELECT userId, amount FROM credit_requests WHERE id = ?] *)
Definition selectRequest (id : Z) (w : World) : option CreditRequestRow :=
  credit_requests w !! id.

(** [UPDATE credit_requests SET status = ? WHERE id = ?] *)
Definition updateStatus (s : Status) (id : Z) (w : World) : World :=
  with_requests (alter (set_status s) id) w.

(** *** The upload directory *)

Definition uploadDir : string := "uploads".

Definition path_join (dir name : string) : string := dir +:+ "/" +:+ name.

(** [fs.promises.writeFile(path, text)]: [None] when the write is rejected. *)
Definition writeFile (path text : string) (w : World) : option World :=
  if decide (path ∈ faulty w) then None
  else Some (with_files (insert path text) w).

(** [fs.promises.readFile(path, 'utf8')]: [None] when the read is rejected,
    on an I/O error or because there is no such file. *)
Definition readFile (path : string) (w : World) : option string :=
  if decide (path ∈ faulty w) then None else files w !! path.

(** ** The route handlers *)

(** [req.session.user], set at login. *)
Record SessionUser := {
  session_id : Z;
  session_role : Role
}.

Inductive Body :=
  | Message (message : string)
  | ScanResult (docId creditsLeft : Z) (name : string) (matches : list Match).

Record Response := {
  status_code : Z;
  body : Body
}.

Definition respond (code : Z) (message : string) : Response :=
  {| status_code := code; body := Message message |}.

Definition Unauthorized : Response := respond 401 "Not Authorized! Please Login".
Definition ValidationError : Response :=
  respond 400 "Text content and file name are required!".
Definition InsufficientCredit : Response :=
  respond 403 "Insufficient credits! Please request.".
Definition InternalServerError : Response := respond 500 "Internal Server Error".
Definition AccessDenied : Response := respond 403 "Access Denied! Admin only.".
Definition NotFound : Response := respond 404 "Credit request not found.".

Definition savedFileName (docId : Z) (name : string) : string :=
  pretty docId +:+ "_" +:+ name.

(** One turn of the [for (const doc of docs)] loop of [/scan]: the read of
    the stored body, the score, the log line and the push on [matches]; a
    failed read is caught inside the loop and logged. *)
Definition compareStep (text name : string) (doc : DocMeta)
    (acc : list Match * World) : list Match * World :=
  let '(matches, w) := acc in
  match readFile (path_join uploadDir (meta_filePath doc)) w with
  | Some existingText =>
      let similarity := calculateSimilarity text existingText in
      let w := log (LogComparing name (meta_fileName doc) similarity) w in
      if above_threshold similarity
      then (matches ++ [{| match_fileName := meta_fileName doc;
                           match_similarity := percent similarity |}], w)
      else (matches, w)
  | None => (matches, log (LogReadError (meta_filePath doc)) w)
  end.

Definition compareLoop (text name : string) (docs : list DocMeta)
    (acc : list Match * World) : list Match * World :=
  foldl (λ acc doc, compareStep text name doc acc) acc docs.

(** [app.post('/scan')]. [now] is what [Date.now()] returns. *)
Definition scan (now : Z) (session : option SessionUser) (text name : string)
    (w : World) : Response * World :=
  match session with
  | None => (Unauthorized, w)
  | Some su =>
      if bool_decide (text = "") || bool_decide (name = "")
      then (ValidationError, w)
      else
        match selectCredits (session_id su) w with
        | None => (InsufficientCredit, w)
        | Some c =>
            if bool_decide (c < 1)%Z then (InsufficientCredit, w)
            else
              let w := deductCredit (session_id su) w in
              let docId := now in
              let saved := savedFileName docId name in
              match writeFile (path_join uploadDir saved) text w with
              | None => (InternalServerError, log LogError w)
              | Some w =>
                  let w := insertDocument (session_id su) saved name w in
                  let docs := listExcept saved w in
                  let '(matches, w) := compareLoop text name docs ([], w) in
                  ({| status_code := 200;
                      body := ScanResult docId (c - 1) name matches |},
                   log (LogMatches matches) w)
              end
        end
  end.

(** [app.post('/auth/register')]. [hashed] is what [bcrypt.hash] returns. *)
Definition register (hashed : string) (name mail pass : string) (w : World)
    : Response * World :=
  if bool_decide (name = "") || bool_decide (mail = "") || bool_decide (pass = "")
  then (respond 400 "All fields are required!", w)
  else if bool_decide (map_Exists (λ _ u, email u = mail ∨ username u = name) (users w))
  then (respond 400 "Email or Username already exists!", w)
  else
    let id := (users_seq w + 1)%Z in
    (respond 201 "User registered successfully!",
     {| users := <[id := {| username := name; email := mail; password := hashed;
                            role := user; credits := 20 |}]> (users w);
        users_seq := id;
        credit_requests := credit_requests w;
        credit_requests_seq := credit_requests_seq w;
        documents := documents w; files := files w; faulty := faulty w;
        console := console w |}).

(** [createAdminUser] of [database.js]; [adminPassword] is the hash of
    [process.env.ADMIN_PASSWORD], [None] when the variable is not set. *)
Definition createAdminUser (name mail : string) (adminPassword : option string)
    (w : World) : World :=
  if bool_decide (map_Exists (λ _ u, role u = admin) (users w)) then w
  else
    match adminPassword with
    | None => w
    | Some hashed =>
        let id := (users_seq w + 1)%Z in
        {| users := <[id := {| username := name; email := mail;
                               password := hashed;
                               role := admin; credits := 9999 |}]> (users w);
           users_seq := id;
           credit_requests := credit_requests w;
           credit_requests_seq := credit_requests_seq w;
           documents := documents w; files := files w; faulty := faulty w;
           console := console w |}
    end.

(** [app.post('/credits/request')]. *)
Definition requestCredits (session : option SessionUser) (amt : Z) (w : World)
    : Response * World :=
  match session with
  | None => (Unauthorized, w)
  | Some su =>
      if bool_decide (amt = 0)%Z || bool_decide (amt < 1)%Z
      then (respond 400 "Invalid credit request amount!", w)
      else
        let id := (credit_requests_seq w + 1)%Z in
        (respond 200 "Credit request submitted for admin approval.",
         {| users := users w; users_seq := users_seq w;
            credit_requests :=
              <[id := {| request_userId := session_id su; amount := amt;
                         status := pending |}]> (credit_requests w);
            credit_requests_seq := id;
            documents := documents w; files := files w; faulty := faulty w;
            console := console w |})
  end.

Definition is_admin (session : option SessionUser) : bool :=
  match session with
  | Some su => bool_decide (session_role su = admin)
  | None => false
  end.

(** [app.post('/admin/approve-request/:requestId')]. *)
Definition approve (session : option SessionUser) (requestId : Z) (w : World)
    : Response * World :=
  if negb (is_admin session) then (AccessDenied, w)
  else
    match selectRequest requestId w with
    | None => (NotFound, w)
    | Some request =>
        let w := grant (amount request) (request_userId request) w in
        let w := updateStatus approved requestId w in
        (respond 200 ("Approved " +:+ pretty (amount request) +:+
                      " credits for user " +:+
                      pretty (request_userId request) +:+ "."), w)
    end.

(** [app.post('/admin/reject-request/:requestId')]. *)
Definition reject (session : option SessionUser) (requestId : Z) (w : World)
    : Response * World :=
  if negb (is_admin session) then (AccessDenied, w)
  else
    let w := updateStatus rejected requestId w in
    (respond 200 "Credit request rejected successfully!", w).

(** The [cron.schedule('0 0 * * *', ...)] job. *)
Definition resetCreditsDaily (w : World) : World :=
  let w := log LogResetStart w in
  let changes := size (filter (λ kv, role kv.2 = user) (users w)) in
  log (LogResetDone changes) (resetAll w).

(** ** The scan handler, one [await] at a time

    Between two [await]s the event loop may run another request. A task is
    a handler suspended at an [await], with its local variables; a step
    performs the awaited operation on the shared state and runs the handler
    up to its next [await]. *)

Inductive ScanTask :=
  | AwaitCredits (su : SessionUser) (text name : string)
  | AwaitDeduct (su : SessionUser) (text name : string) (c : Z)
  | AwaitWrite (su : SessionUser) (text name : string) (c docId : Z)
  | AwaitInsert (su : SessionUser) (text name : string) (c docId : Z)
  | AwaitDocs (su : SessionUser) (text name : string) (c docId : Z)
  | AwaitRead (su : SessionUser) (text name : string) (c docId : Z)
      (docs : list DocMeta) (matches : list Match)
  | Responded (r : Response).

(** The synchronous prefix of the handler: session and input checks. *)
Definition startScan (session : option SessionUser) (text name : string) : ScanTask :=
  match session with
  | None => Responded Unauthorized
  | Some su =>
      if bool_decide (text = "") || bool_decide (name = "")
      then Responded ValidationError
      else AwaitCredits su text name
  end.

Definition scan_step (now : Z) (task : ScanTask) (w : World) : ScanTask * World :=
  match task with
  | AwaitCredits su text name =>
      match selectCredits (session_id su) w with
      | None => (Responded InsufficientCredit, w)
      | Some c =>
          if bool_decide (c < 1)%Z then (Responded InsufficientCredit, w)
          else (AwaitDeduct su text name c, w)
      end
  | AwaitDeduct su text name c =>
      (AwaitWrite su text name c now, deductCredit (session_id su) w)
  | AwaitWrite su text name c docId =>
      match writeFile (path_join uploadDir (savedFileName docId name)) text w with
      | None => (Responded InternalServerError, log LogError w)
      | Some w => (AwaitInsert su text name c docId, w)
      end
  | AwaitInsert su text name c docId =>
      (AwaitDocs su text name c docId,
       insertDocument (session_id su) (savedFileName docId name) name w)
  | AwaitDocs su text name c docId =>
      (AwaitRead su text name c docId
         (listExcept (savedFileName docId name) w) [], w)
  | AwaitRead su text name c docId [] matches =>
      (Responded {| status_code := 200;
                    body := ScanResult docId (c - 1) name matches |},
       log (LogMatches matches) w)
  | AwaitRead su text name c docId (doc :: docs) matches =>
      let '(matches, w) := compareStep text name doc (matches, w) in
      (AwaitRead su text name c docId docs matches, w)
  | Responded r => (Responded r, w)
  end.

Fixpoint scan_run (now : Z) (fuel : nat) (task : ScanTask) (w : World)
    : ScanTask * World :=
  match fuel with
  | O => (task, w)
  | S fuel =>
      let '(task, w) := scan_step now task w in scan_run now fuel task w
  end.

(** Several requests in flight: a schedule names, turn by turn, the task
    that is resumed and the clock value it sees. *)
Definition pool_step (cfg : list ScanTask * World) (turn : nat * Z)
    : list ScanTask * World :=
  let '(tasks, w) := cfg in
  let '(i, now) := turn in
  match tasks !! i with
  | Some task =>
      let '(task, w) := scan_step now task w in (<[i := task]> tasks, w)
  | None => cfg
  end.

Definition run_schedule (schedule : list (nat * Z)) (cfg : list ScanTask * World)
    : list ScanTask * World :=
  foldl pool_step cfg schedule.

Definition response_of (task : ScanTask) : option Response :=
  match task with
  | Responded r => Some r
  | _ => None
  end.

(** ** Sequences of operations *)

Inductive Op :=
  | OpRegister (hashed name mail pass : string)
  | OpCreateAdminUser (name mail : string) (adminPassword : option string)
  | OpScan (now : Z) (session : option SessionUser) (text name : string)
  | OpRequestCredits (session : option SessionUser) (amt : Z)
  | OpApprove (session : option SessionUser) (requestId : Z)
  | OpReject (session : option SessionUser) (requestId : Z)
  | OpResetCreditsDaily.

Definition exec (w : World) (op : Op) : World :=
  match op with
  | OpRegister hashed name mail pass => (register hashed name mail pass w).2
  | OpCreateAdminUser name mail adminPassword =>
      createAdminUser name mail adminPassword w
  | OpScan now session text name => (scan now session text name w).2
  | OpRequestCredits session amt => (requestCredits session amt w).2
  | OpApprove session requestId => (approve session requestId w).2
  | OpReject session requestId => (reject session requestId w).2
  | OpResetCreditsDaily => resetCreditsDaily w
  end.

Definition run_ops (ops : list Op) (w : World) : World := foldl exec w ops.

(** The database right after the tables are created. *)
Definition empty_world : World :=
  {| users := ∅; users_seq := 0; credit_requests := ∅;
     credit_requests_seq := 0; documents := []; files := ∅; faulty := ∅;
     console := [] |}.

Definition credits_nonneg (w : World) : Prop :=
  map_Forall (λ _ u, (0 ≤ credits u)%Z) (users w).

Definition requests_positive (w : World) : Prop :=
  map_Forall (λ _ r, (1 ≤ amount r)%Z) (credit_requests w).

(** ** What a scan reports, document by document

    The outcome of one turn of the comparison loop as a function of the
    stored files: the entry pushed on [matches], if any, and the line
    written on the console. *)

Definition scanMatch (text : string) (w : World) (doc : DocMeta) : option Match :=
  match readFile (path_join uploadDir (meta_filePath doc)) w with
  | Some existingText =>
      let similarity := calculateSimilarity text existingText in
      if above_threshold similarity
      then Some {| match_fileName := meta_fileName doc;
                   match_similarity := percent similarity |}
      else None
  | None => None
  end.

Definition scanLine (text name : string) (w : World) (doc : DocMeta) : LogLine :=
  match readFile (path_join uploadDir (meta_filePath doc)) w with
  | Some existingText =>
      LogComparing name (meta_fileName doc) (calculateSimilarity text existingText)
  | None => LogReadError (meta_filePath doc)
  end.

(** The world once the credit is deducted, the body written and the row
    inserted. *)
Definition persisted (now uid : Z) (text name : string) (w : World) : World :=
  insertDocument uid (savedFileName now name) name
    (with_files (insert (path_join uploadDir (savedFileName now name)) text)
       (deductCredit uid w)).

(** ** Sample data *)

Definition sample_user (c : Z) : UserRow :=
  {| username := "alice"; email := "alice@example.com"; password := "$2b$10$hash";
     role := user; credits := c |}.

Definition sample_session : SessionUser := {| session_id := 1; session_role := user |}.
Definition admin_session : SessionUser := {| session_id := 2; session_role := admin |}.

Definition sample_doc (id : Z) (path name : string) : DocumentRow :=
  {| document_id := id; document_userId := 1; filePath := path; fileName := name |}.

(** One user, with id 1 and balance [c], the given document rows, stored
    bodies and faulty paths. *)
Definition sample_world (c : Z) (docs : list DocumentRow)
    (bodies : list (string * string)) (bad : list string) : World :=
  {| users := {[ 1%Z := sample_user c ]}; users_seq := 1;
     credit_requests := ∅; credit_requests_seq := 0;
     documents := docs; files := list_to_map bodies;
     faulty := list_to_set bad; console := [] |}.

(** The same user with one pending request of 5 credits. *)
Definition request_world : World :=
  {| users := {[ 1%Z := sample_user 20 ]}; users_seq := 1;
     credit_requests :=
       {[ 1%Z := {| request_userId := 1; amount := 5; status := pending |} ]};
     credit_requests_seq := 1;
     documents := []; files := ∅; faulty := ∅; console := [] |}.

Fixpoint replicate_string (n : nat) (s tail : string) : string :=
  match n with
  | O => tail
  | S n => s +:+ replicate_string n s tail
  end.

(** Three texts of 100 characters: the second differs from the first in 40
    places, the third in 39. *)
Definition text_100 : string := replicate_string 100 "a" "".
Definition text_60 : string :=
  replicate_string 60 "a" (replicate_string 40 "b" "").
Definition text_61 : string :=
  replicate_string 61 "a" (replicate_string 39 "b" "").

Definition threshold_world : World :=
  sample_world 5
    [sample_doc 1 "1_sixty.txt" "sixty.txt"; sample_doc 2 "2_sixtyone.txt" "sixtyone.txt"]
    [("uploads/1_sixty.txt", text_60); ("uploads/2_sixtyone.txt", text_61)] [].

(** Two stored documents; the body of the first cannot be read. *)
Definition unreadable_world : World :=
  sample_world 5
    [sample_doc 1 "1_lost.txt" "lost.txt"; sample_doc 2 "2_kept.txt" "kept.txt"]
    [("uploads/2_kept.txt", "the quick brown fox")] [].

(** A stored document whose key is the key of the submission made at
    clock 1000 under the name [a.txt]. *)
Definition collision_world : World :=
  sample_world 5
    [sample_doc 1 "1000_a.txt" "a.txt"; sample_doc 2 "2_b.txt" "b.txt"]
    [("uploads/1000_a.txt", "first body"); ("uploads/2_b.txt", "second body")] [].

(** Two scans of the same user in flight, and a schedule that lets both
    read the balance before either deducts. *)
Definition race_tasks : list ScanTask :=
  [startScan (Some sample_session) "hello" "a.txt";
   startScan (Some sample_session) "hello there" "b.txt"].

Definition race_schedule : list (nat * Z) :=
  [(0, 1000%Z); (1, 1000%Z)] ++ replicate 5 (0, 1001%Z) ++ replicate 6 (1, 1002%Z).

Definition serial_schedule : list (nat * Z) :=
  replicate 6 (0, 1001%Z) ++ replicate 7 (1, 1002%Z).


(** ** The remaining routes *)

(** [SELECT * FROM users WHERE email = ?], the row [db.get] hands back;
    [email] is [UNIQUE], so at most one row qualifies. *)
Definition selectUserByEmail (mail : string) (w : World) : option (Z * UserRow) :=
  head (filter (λ kv, email kv.2 = mail) (map_to_list (users w))).

(** What [/auth/login] stores in [req.session.user] and sends back. *)
Record LoginUser := {
  login_id : Z;
  login_username : string;
  login_role : Role;
  login_credits : Z
}.

Definition session_of (l : LoginUser) : SessionUser :=
  {| session_id := login_id l; session_role := login_role l |}.

(** [app.post('/auth/login')]. [compare] is [bcrypt.compare]. The route
    only reads the database; the second component is the session it sets. *)
Definition login (compare : string → string → bool) (mail pass : string)
    (w : World) : Response * option LoginUser :=
  if bool_decide (mail = "") || bool_decide (pass = "")
  then (respond 400 "Email and password are required!", None)
  else
    match selectUserByEmail mail w with
    | None => (respond 400 "User not found!", None)
    | Some (id, u) =>
        if compare pass (password u)
        then (respond 200 "Login successful!",
              Some {| login_id := id; login_username := username u;
                      login_role := role u; login_credits := credits u |})
        else (respond 401 "Invalid credentials!", None)
    end.



(** A row of the join of [/admin/credit-requests]. *)
Record PendingRequest := {
  pending_id : Z;
  pending_username : string;
  pending_amount : Z
}.

(** [SELECT credit_requests.id, users.username, credit_requests.amount
     FROM credit_requests JOIN users ON credit_requests.userId = users.id
     WHERE credit_requests.status = 'pending'] *)
Definition pendingRequests (w : World) : list PendingRequest :=
  omap (λ kr : Z * CreditRequestRow,
          if decide (status kr.2 = pending)
          then (λ u, {| pending_id := kr.1; pending_username := username u;
                        pending_amount := amount kr.2 |})
                 <$> users w !! request_userId kr.2
          else None)
       (map_to_list (credit_requests w)).

(** [app.get('/admin/credit-requests')]. *)
Definition adminCreditRequests (session : option SessionUser) (w : World)
    : Response + list PendingRequest :=
  if negb (is_admin session) then inl AccessDenied else inr (pendingRequests w).

(** A row of [SELECT id, filePath, fileName FROM documents]. *)
Record DocListing := {
  listing_id : Z;
  listing_filePath : string;
  listing_fileName : string
}.

Definition listing_of (d : DocumentRow) : DocListing :=
  {| listing_id := document_id d; listing_filePath := filePath d;
     listing_fileName := fileName d |}.

(** [app.get('/user/documents')]. *)
Definition userDocuments (session : option SessionUser) (w : World)
    : Response + list DocListing :=
  match session with
  | None => inl Unauthorized
  | Some su =>
      inr (listing_of <$>
             filter (λ d, document_userId d = session_id su) (documents w))
  end.

(** The row a scan of [su] made at clock [now] under [name] inserts. *)
Definition new_row (now : Z) (su : SessionUser) (name : string) (w : World)
    : DocumentRow :=
  {| document_id := Z.of_nat (length (documents w)) + 1;
     document_userId := session_id su;
     filePath := savedFileName now name; fileName := name |}.

(** ** Several scans of one user, one after the other *)

Record ScanRequest := {
  request_now : Z;
  request_text : string;
  request_name : string
}.

Fixpoint scans (su : SessionUser) (requests : list ScanRequest) (w : World)
    : list Response * World :=
  match requests with
  | [] => ([], w)
  | r :: requests =>
      let '(response, w) :=
        scan (request_now r) (Some su) (request_text r) (request_name r) w in
      let '(responses, w) := scans su requests w in
      (response :: responses, w)
  end.

Definition count_status (code : Z) (responses : list Response) : nat :=
  length (filter (λ r, status_code r = code) responses).

(** ** Scans in flight that may still deduct *)

(** Whether a suspended handler has its [UPDATE ... credits - 1] on the
    balance of user [uid] still ahead of it. *)
Definition may_deduct (uid : Z) (task : ScanTask) : bool :=
  match task with
  | AwaitCredits su _ _ | AwaitDeduct su _ _ _ => bool_decide (session_id su = uid)
  | _ => false
  end.

Definition pending_deductions (uid : Z) (tasks : list ScanTask) : Z :=
  foldr (λ task n, ((if may_deduct uid task then 1 else 0) + n)%Z) 0%Z tasks.

(** ** Shapes of the users table *)

(** No two rows share a user name or an e-mail address (the two [UNIQUE]
    columns). *)
Definition unique_identities (w : World) : Prop :=
  ∀ i j u v, users w !! i = Some u → users w !! j = Some v →
    username u = username v ∨ email u = email v → i = j.

(** Every key in use is at most the [AUTOINCREMENT] counter. *)
Definition ids_below_seq (w : World) : Prop :=
  ∀ i u, users w !! i = Some u → (i ≤ users_seq w)%Z.

(** ** More sample data *)

(** [bcrypt.compare] for the sample hashes: a hash is the password behind a
    fixed prefix. *)
Definition sample_compare (pass hashed : string) : bool :=
  bool_decide (hashed = "$2b$10$" +:+ pass).

Definition sample_requests : list ScanRequest :=
  [{| request_now := 1000; request_text := "one"; request_name := "a.txt" |};
   {| request_now := 1001; request_text := "two"; request_name := "b.txt" |};
   {| request_now := 1002; request_text := ""; request_name := "c.txt" |};
   {| request_now := 1003; request_text := "three"; request_name := "d.txt" |}].

(** Two users, an admin and a request of a user that no longer exists. *)
Definition office_world : World :=
  {| users := {[ 1%Z := sample_user 3;
                 2%Z := {| username := "root"; email := "root@example.com";
                           password := "$2b$10$secret"; role := admin;
                           credits := 9999 |};
                 3%Z := {| username := "bob"; email := "bob@example.com";
                           password := "$2b$10$bobpass"; role := user;
                           credits := 7 |} ]};
     users_seq := 3;
     credit_requests :=
       {[ 1%Z := {| request_userId := 1; amount := 5; status := pending |};
          2%Z := {| request_userId := 3; amount := 2; status := approved |};
          3%Z := {| request_userId := 9; amount := 4; status := pending |} ]};
     credit_requests_seq := 3;
     documents := [sample_doc 1 "1_a.txt" "a.txt";
                   {| document_id := 2; document_userId := 3;
                      filePath := "2_b.txt"; fileName := "b.txt" |}];
     files := {[ "uploads/1_a.txt" := "alpha"; "uploads/2_b.txt" := "beta" ]};
     faulty := ∅; console := [] |}.

(** * Properties *)

(** ** The rolling row computes the edit distance *)

Section DistanceFacts.
Context {A : Type} `{EqDecision A}.
Implicit Types a b : list A.

Import Levenshtein.

Lemma editDistance_nil_r a : editDistance a [] = length a.
Proof. by destruct a. Qed.

Lemma editDistance_cons_cons x y a b :
  editDistance (x :: a) (y :: b) =
    min3 (S (editDistance a (y :: b))) (S (editDistance (x :: a) b))
         (subst_cost x y + editDistance a b).
Proof. done. Qed.

Lemma hd_suffixes (f : list A → nat) b : hd 0 (f <$> suffixes b) = f b.
Proof. by destruct b. Qed.

Lemma next_row_suffixes x a b :
  next_row x b (editDistance a <$> suffixes b) = editDistance (x :: a) <$> suffixes b.
Proof.
  induction b as [|y b IH].
  - cbn [suffixes fmap list_fmap next_row hd]. by rewrite editDistance_nil_r.
  - cbn [suffixes fmap list_fmap next_row].
    change (list_fmap _ _ (editDistance a) (suffixes b))
      with (editDistance a <$> suffixes b).
    rewrite IH, !hd_suffixes. by rewrite editDistance_cons_cons.
Qed.

Lemma row_suffixes a b : row a b = editDistance a <$> suffixes b.
Proof.
  induction a as [|x a IH]; [done|].
  cbn [row]. rewrite IH. apply next_row_suffixes.
Qed.

Lemma get_editDistance a b : get a b = editDistance a b.
Proof. unfold get. by rewrite row_suffixes, hd_suffixes. Qed.

Lemma editDistance_le_max a b : editDistance a b ≤ length a `max` length b.
Proof.
  revert b. induction a as [|x a IH]; intros b.
  - cbn [editDistance length]. lia.
  - destruct b as [|y b].
    + rewrite editDistance_nil_r. lia.
    + rewrite editDistance_cons_cons. specialize (IH b).
      assert (subst_cost x y ≤ 1) by (unfold subst_cost; case_decide; lia).
      unfold min3. cbn [length]. lia.
Qed.

End DistanceFacts.

(** ** The similarity metric *)

Lemma length_chars s : length (chars s) = String.length s.
Proof. induction s as [|c s IH]; [done|]. cbn. f_equal. exact IH. Qed.

Lemma length_zero_empty (s : string) : String.length s = 0 ↔ s = "".
Proof. by destruct s. Qed.

Lemma calculateSimilarity_nonempty a b :
  a ≠ "" → b ≠ "" →
  calculateSimilarity a b =
    (1 - inject_Z (Z.of_nat (Levenshtein.get (chars a) (chars b))) /
         inject_Z (Z.of_nat (String.length a `max` String.length b)))%Q.
Proof.
  intros Ha Hb. unfold calculateSimilarity.
  rewrite !bool_decide_eq_false_2; [done | |]; by rewrite length_zero_empty.
Qed.

(** A quotient [d / m] of naturals with [d ≤ m] and [0 < m] leaves
    [1 - d / m] between 0 and 1. *)
Lemma one_minus_ratio_range (d m : nat) :
  d ≤ m → 0 < m →
  (0 <= 1 - inject_Z (Z.of_nat d) / inject_Z (Z.of_nat m) <= 1)%Q.
Proof.
  intros Hd Hm.
  destruct (Z.of_nat m) as [|p|p] eqn:Hp; try lia.
  rewrite <- Qmake_Qdiv.
  unfold Qle, Qminus, Qplus, Qopp; cbn [Qnum Qden].
  split; nia.
Qed.

Lemma calculateSimilarity_range a b :
  (0 <= calculateSimilarity a b <= 1)%Q.
Proof.
  unfold calculateSimilarity.
  destruct (bool_decide (String.length a = 0) || bool_decide (String.length b = 0))
    eqn:He.
  - split; [apply Qle_refl | discriminate].
  - apply orb_false_elim in He as [Ha%bool_decide_eq_false Hb%bool_decide_eq_false].
    apply one_minus_ratio_range; [|lia].
    rewrite get_editDistance, <- !length_chars. apply editDistance_le_max.
Qed.

(** C3. For non-empty texts the similarity is one minus the Levenshtein
    distance (the classic recurrence [editDistance]) divided by the length
    of the longer text; the distance from "kitten" to "sitting" is 3 and
    their similarity is 1 - 3/7; and every similarity lies between 0 and 1. *)
Theorem calculateSimilarity_normalized_distance :
  (∀ a b, a ≠ "" → b ≠ "" →
     calculateSimilarity a b =
       (1 - inject_Z (Z.of_nat (Levenshtein.editDistance (chars a) (chars b))) /
            inject_Z (Z.of_nat (String.length a `max` String.length b)))%Q)
  ∧ Levenshtein.editDistance (chars "kitten") (chars "sitting") = 3
  ∧ (calculateSimilarity "kitten" "sitting" == 1 - (3 # 7))%Q
  ∧ (∀ a b, 0 <= calculateSimilarity a b <= 1)%Q.
Proof.
  split_and!.
  - intros a b Ha Hb. rewrite calculateSimilarity_nonempty by done.
    by rewrite get_editDistance.
  - rewrite <- get_editDistance. by vm_compute.
  - by vm_compute.
  - apply calculateSimilarity_range.
Qed.

Lemma calculateSimilarity_normalized_distance_witness :
  calculateSimilarity "kitten" "sitting" =
    (1 - inject_Z (Z.of_nat (Levenshtein.editDistance (chars "kitten") (chars "sitting"))) /
         inject_Z (Z.of_nat (String.length "kitten" `max` String.length "sitting")))%Q.
Proof.
  apply (proj1 calculateSimilarity_normalized_distance "kitten" "sitting");
    discriminate.
Defined.

(** C4. When either text has length zero the similarity is 0, also when
    both are empty. *)
Theorem calculateSimilarity_empty a b :
  String.length a = 0 ∨ String.length b = 0 → calculateSimilarity a b = 0%Q.
Proof.
  intros Hab. unfold calculateSimilarity.
  destruct Hab as [H|H]; rewrite H.
  - done.
  - by rewrite orb_true_r.
Qed.

Lemma calculateSimilarity_empty_witness :
  calculateSimilarity "" "" = 0%Q ∧ calculateSimilarity "" "x" = 0%Q
  ∧ calculateSimilarity "x" "" = 0%Q.
Proof.
  split_and!; apply calculateSimilarity_empty; cbn; auto.
Defined.

(** ** The comparison loop *)

Lemma scanMatch_with_console text f w doc :
  scanMatch text (with_console f w) doc = scanMatch text w doc.
Proof. done. Qed.

Lemma scanLine_with_console text name f w doc :
  scanLine text name (with_console f w) doc = scanLine text name w doc.
Proof. done. Qed.

Lemma compareStep_spec text name doc ms w :
  compareStep text name doc (ms, w) =
    (ms ++ option_list (scanMatch text w doc), log (scanLine text name w doc) w).
Proof.
  unfold compareStep, scanMatch, scanLine.
  destruct (readFile _ w) as [existingText|]; cbn [option_list].
  - destruct (above_threshold _); cbn [option_list]; by rewrite ?app_nil_r.
  - by rewrite app_nil_r.
Qed.

Lemma compareLoop_spec text name docs ms w :
  compareLoop text name docs (ms, w) =
    (ms ++ omap (scanMatch text w) docs,
     with_console (λ lines, lines ++ (scanLine text name w <$> docs)) w).
Proof.
  revert ms w. induction docs as [|doc docs IH]; intros ms w.
  - cbn. rewrite app_nil_r. unfold with_console. destruct w; cbn.
    by rewrite app_nil_r.
  - unfold compareLoop in *. cbn [foldl]. rewrite compareStep_spec, IH.
    unfold log. f_equal.
    + cbn [omap list_omap]. rewrite <- app_assoc. f_equal.
      change (scanMatch text (with_console _ w)) with (scanMatch text w).
      by destruct (scanMatch text w doc).
    + unfold with_console; cbn. f_equal. rewrite <- app_assoc. f_equal.
Qed.

(** ** The scan route *)

Lemma valid_input text name :
  text ≠ "" → name ≠ "" →
  bool_decide (text = "") || bool_decide (name = "") = false.
Proof. intros. by rewrite !bool_decide_eq_false_2. Qed.

(** A scan that gets past the credit check and whose write is accepted. *)
Lemma scan_success now su text name w c :
  text ≠ "" → name ≠ "" →
  selectCredits (session_id su) w = Some c → (1 ≤ c)%Z →
  path_join uploadDir (savedFileName now name) ∉ faulty w →
  let w3 := persisted now (session_id su) text name w in
  let docs := listExcept (savedFileName now name) w3 in
  let matches := omap (scanMatch text w3) docs in
  scan now (Some su) text name w =
    ({| status_code := 200; body := ScanResult now (c - 1) name matches |},
     with_console
       (λ lines, lines ++ (scanLine text name w3 <$> docs) ++ [LogMatches matches])
       w3).
Proof.
  intros Ht Hn Hc Hle Hok w3 docs matches. unfold scan.
  rewrite valid_input, Hc by done.
  rewrite bool_decide_eq_false_2 by lia.
  unfold writeFile. rewrite decide_False by done.
  fold (persisted now (session_id su) text name w). fold w3. fold docs.
  rewrite compareLoop_spec. cbn [app]. fold matches.
  f_equal. unfold log, with_console; cbn. f_equal. by rewrite <- app_assoc.
Qed.

(** Only such a scan answers 200. *)
Lemma scan_200_inv now session text name w :
  status_code (scan now session text name w).1 = 200%Z →
  ∃ su c, session = Some su ∧ text ≠ "" ∧ name ≠ "" ∧
    selectCredits (session_id su) w = Some c ∧ (1 ≤ c)%Z ∧
    path_join uploadDir (savedFileName now name) ∉ faulty w.
Proof.
  unfold scan. destruct session as [su|]; [|done].
  destruct (bool_decide (text = "") || bool_decide (name = "")) eqn:Hv; [done|].
  apply orb_false_elim in Hv as [Ht%bool_decide_eq_false Hn%bool_decide_eq_false].
  destruct (selectCredits _ w) as [c|] eqn:Hc; [|done].
  case_bool_decide as Hlt; [done|].
  unfold writeFile. case_decide as Hbad; [done|].
  intros _. exists su, c. split_and!; try done. lia.
Qed.

Lemma above_threshold_iff similarity :
  above_threshold similarity = true ↔ (6 # 10 < similarity)%Q.
Proof.
  unfold above_threshold. rewrite negb_true_iff.
  split.
  - intros Hle. apply Qnot_le_lt. intros H%Qle_bool_iff. congruence.
  - intros Hlt. destruct (Qle_bool similarity (6 # 10)) eqn:Hle; [|done].
    apply Qle_bool_iff in Hle. by apply Qlt_not_le in Hlt.
Qed.




(** The two stored texts of [threshold_world] score exactly 0.60 and 0.61
    against the submission; only the second is reported. *)
Example scan_threshold_example :
  (calculateSimilarity text_100 text_60 == 60 # 100)%Q
  ∧ (calculateSimilarity text_100 text_61 == 61 # 100)%Q
  ∧ (scan 1000 (Some sample_session) text_100 "new.txt" threshold_world).1 =
      {| status_code := 200;
         body := ScanResult 1000 4 "new.txt"
                   [{| match_fileName := "sixtyone.txt";
                       match_similarity := "61.00%" |}] |}.
Proof. split_and!; by vm_compute. Qed.

(** The same boundary on doubles: for the text at distance 40 of 100 the
    double [1 - 40/100] is the double [0.6] itself and the test fails; for
    the text at distance 39 it holds; "kitten" and "sitting" give the double
    [1 - 3/7]. *)
Example threshold_on_doubles :
  calculateSimilarity_double text_100 text_60 = 0x1.3333333333333p-1%float
  ∧ above_threshold_double (calculateSimilarity_double text_100 text_60) = false
  ∧ above_threshold_double (calculateSimilarity_double text_100 text_61) = true
  ∧ calculateSimilarity_double "kitten" "sitting" =
      PrimFloat.sub 1 (PrimFloat.div 3 7)
  ∧ above_threshold_double (calculateSimilarity_double "kitten" "sitting") = false.
Proof. split_and!; by vm_compute. Qed.

(** C6. A scan for a user whose balance is below 1 changes nothing: the
    balance, the documents, the stored bodies and the console are as
    before. With a text and a file name the answer is [InsufficientCredit],
    given at the first [await] of the handler, before any deduction, write
    or read is issued. *)
Theorem scan_insufficient_credit now su text name w c :
  selectCredits (session_id su) w = Some c → (c < 1)%Z →
  (scan now (Some su) text name w).2 = w
  ∧ (text ≠ "" → name ≠ "" →
     (scan now (Some su) text name w).1 = InsufficientCredit
     ∧ scan_step now (startScan (Some su) text name) w =
         (Responded InsufficientCredit, w)).
Proof.
  intros Hc Hlt. unfold scan, startScan.
  destruct (bool_decide (text = "") || bool_decide (name = "")) eqn:Hv.
  - split; [done|]. intros Ht Hn. by rewrite valid_input in Hv.
  - cbn [scan_step]. rewrite Hc, bool_decide_eq_true_2 by done. done.
Qed.

Lemma scan_insufficient_credit_witness :
  (scan 1000 (Some sample_session) "hello" "a.txt" (sample_world 0 [] [] [])).2 =
    sample_world 0 [] [] []
  ∧ (scan 1000 (Some sample_session) "hello" "a.txt" (sample_world 0 [] [] [])).1 =
      InsufficientCredit.
Proof.
  pose proof (scan_insufficient_credit 1000 sample_session "hello" "a.txt"
                (sample_world 0 [] [] []) 0 eq_refl eq_refl) as [Hw Hr].
  split; [exact Hw|]. apply Hr; discriminate.
Defined.

Lemma selectCredits_deductCredit id w c :
  selectCredits id w = Some c →
  selectCredits id (deductCredit id w) = Some (c - 1)%Z.
Proof.
  unfold selectCredits, deductCredit, with_users; cbn [users].
  rewrite lookup_alter_eq. by destruct (users w !! id) as [u|]; intros [= <-].
Qed.

(** C7. When the deduction went through and the write of the body is
    rejected, the scan answers 500, the balance stays one lower, no row is
    added to [documents] and no body is stored: nothing is refunded. *)
Theorem scan_storage_failure_keeps_deduction now su text name w c :
  text ≠ "" → name ≠ "" →
  selectCredits (session_id su) w = Some c → (1 ≤ c)%Z →
  path_join uploadDir (savedFileName now name) ∈ faulty w →
  let w' := (scan now (Some su) text name w).2 in
  (scan now (Some su) text name w).1 = InternalServerError
  ∧ w' = log LogError (deductCredit (session_id su) w)
  ∧ selectCredits (session_id su) w' = Some (c - 1)%Z
  ∧ documents w' = documents w
  ∧ files w' = files w.
Proof.
  intros Ht Hn Hc Hle Hbad w'. subst w'. unfold scan.
  rewrite valid_input, Hc by done.
  rewrite bool_decide_eq_false_2 by lia.
  unfold writeFile. rewrite decide_True by done. cbn [fst snd].
  split_and!; try done.
  by apply (selectCredits_deductCredit _ w).
Qed.

Lemma scan_storage_failure_keeps_deduction_witness :
  let w := sample_world 3 [] [] ["uploads/1000_a.txt"] in
  (scan 1000 (Some sample_session) "hello" "a.txt" w).1 = InternalServerError
  ∧ selectCredits 1 (scan 1000 (Some sample_session) "hello" "a.txt" w).2 = Some 2%Z
  ∧ documents (scan 1000 (Some sample_session) "hello" "a.txt" w).2 = [].
Proof.
  intros w.
  destruct (scan_storage_failure_keeps_deduction 1000 sample_session "hello" "a.txt"
              w 3) as (Hr & _ & Hc & Hd & _).
  - discriminate.
  - discriminate.
  - reflexivity.
  - lia.
  - vm_compute. set_solver.
  - split_and!; [exact Hr | exact Hc | exact Hd].
Defined.

Lemma scanMatch_unreadable text w doc :
  readFile (path_join uploadDir (meta_filePath doc)) w = None →
  scanMatch text w doc = None.
Proof. intros Hread. unfold scanMatch. by rewrite Hread. Qed.

Lemma scanLine_unreadable text name w doc :
  readFile (path_join uploadDir (meta_filePath doc)) w = None →
  scanLine text name w doc = LogReadError (meta_filePath doc).
Proof. intros Hread. unfold scanLine. by rewrite Hread. Qed.

Lemma scanLine_readable text name w doc existingText :
  readFile (path_join uploadDir (meta_filePath doc)) w = Some existingText →
  scanLine text name w doc =
    LogComparing name (meta_fileName doc) (calculateSimilarity text existingText).
Proof. intros Hread. unfold scanLine. by rewrite Hread. Qed.

(** C8. When the body of one listed document cannot be read, the scan still
    answers 200 with the new row in [documents] and the new body stored;
    the read error is on the console, the match list is the one computed
    from the documents before and after the unreadable one, and each of
    those whose body can be read was compared. *)
Theorem scan_skips_unreadable_document now su text name w c before doc after :
  text ≠ "" → name ≠ "" →
  selectCredits (session_id su) w = Some c → (1 ≤ c)%Z →
  path_join uploadDir (savedFileName now name) ∉ faulty w →
  let w' := (scan now (Some su) text name w).2 in
  listExcept (savedFileName now name) w' = before ++ doc :: after →
  readFile (path_join uploadDir (meta_filePath doc)) w' = None →
  (scan now (Some su) text name w).1 =
    {| status_code := 200;
       body := ScanResult now (c - 1) name
                 (omap (scanMatch text w') (before ++ after)) |}
  ∧ documents w' =
      documents w ++
        [{| document_id := Z.of_nat (length (documents w)) + 1;
            document_userId := session_id su;
            filePath := savedFileName now name; fileName := name |}]
  ∧ files w' !! path_join uploadDir (savedFileName now name) = Some text
  ∧ LogReadError (meta_filePath doc) ∈ console w'
  ∧ ∀ other existingText,
      other ∈ before ++ after →
      readFile (path_join uploadDir (meta_filePath other)) w' = Some existingText →
      LogComparing name (meta_fileName other)
        (calculateSimilarity text existingText) ∈ console w'.
Proof.
  intros Ht Hn Hc Hle Hok w'. subst w'.
  rewrite (scan_success now su text name w c) by done. cbn [fst snd].
  set (w3 := persisted now (session_id su) text name w).
  change (listExcept ?k (with_console _ w3)) with (listExcept k w3).
  change (readFile ?p (with_console _ w3)) with (readFile p w3).
  change (scanMatch text (with_console _ w3)) with (scanMatch text w3).
  intros Hdocs Hread. rewrite Hdocs. split_and!.
  - do 2 f_equal. rewrite !omap_app. cbn [omap list_omap].
    by rewrite scanMatch_unreadable.
  - done.
  - cbn. apply lookup_insert_eq.
  - cbn [console with_console]. rewrite !elem_of_app, list_elem_of_fmap.
    right; left. exists doc. rewrite scanLine_unreadable by done.
    split; [done|]. rewrite elem_of_app, elem_of_cons. auto.
  - intros other existingText Hin Hother.
    cbn [console with_console]. rewrite !elem_of_app, list_elem_of_fmap.
    right; left. exists other.
    rewrite (scanLine_readable _ _ _ _ existingText) by done.
    split; [done|]. rewrite elem_of_app, elem_of_cons.
    apply elem_of_app in Hin as [?|?]; auto.
Qed.

Lemma scan_skips_unreadable_document_witness :
  (scan 1000 (Some sample_session) "the quick brown fox" "new.txt" unreadable_world).1 =
    {| status_code := 200;
       body := ScanResult 1000 4 "new.txt"
                 [{| match_fileName := "kept.txt";
                     match_similarity := "100.00%" |}] |}.
Proof.
  destruct (scan_skips_unreadable_document 1000 sample_session
              "the quick brown fox" "new.txt" unreadable_world 5 []
              {| meta_filePath := "1_lost.txt"; meta_fileName := "lost.txt" |}
              [{| meta_filePath := "2_kept.txt"; meta_fileName := "kept.txt" |}])
    as (Hr & _).
  - discriminate.
  - discriminate.
  - reflexivity.
  - lia.
  - vm_compute. set_solver.
  - vm_compute. reflexivity.
  - vm_compute. reflexivity.
  - rewrite Hr. vm_compute. reflexivity.
Defined.

(** ** The listing that leaves out the new key *)

Lemma listExcept_elem key w meta :
  meta ∈ listExcept key w ↔
    ∃ d, d ∈ documents w ∧ filePath d ≠ key ∧ meta = meta_of d.
Proof.
  unfold listExcept. rewrite list_elem_of_fmap.
  split.
  - intros (d & -> & [Hne Hin]%list_elem_of_filter). by exists d.
  - intros (d & Hin & Hne & ->). exists d. split; [done|].
    by apply list_elem_of_filter.
Qed.

(** C10. The listing returns, in table order, the metadata of exactly the
    rows whose [filePath] differs from the key. So when a stored row
    already carries the key of the new submission, its body is replaced by
    the new text, it is not in the list the scan compares, and the match
    list and the comparison lines on the console come from the listed
    documents alone. *)
Theorem listExcept_excludes_colliding_key :
  (∀ key w,
     listExcept key w = meta_of <$> filter (λ d, filePath d ≠ key) (documents w)
     ∧ ∀ meta, meta ∈ listExcept key w ↔
         ∃ d, d ∈ documents w ∧ filePath d ≠ key ∧ meta = meta_of d)
  ∧ (∀ now su text name w c old,
       text ≠ "" → name ≠ "" →
       selectCredits (session_id su) w = Some c → (1 ≤ c)%Z →
       path_join uploadDir (savedFileName now name) ∉ faulty w →
       old ∈ documents w → filePath old = savedFileName now name →
       let w' := (scan now (Some su) text name w).2 in
       let docs := listExcept (savedFileName now name) w' in
       let matches := omap (scanMatch text w') docs in
       files w' !! path_join uploadDir (filePath old) = Some text
       ∧ (meta_of old ∉ docs)
       ∧ (∀ meta, meta ∈ docs → meta_filePath meta ≠ filePath old)
       ∧ (scan now (Some su) text name w).1 =
           {| status_code := 200; body := ScanResult now (c - 1) name matches |}
       ∧ console w' =
           console w ++ (scanLine text name w' <$> docs) ++ [LogMatches matches]).
Proof.
  split.
  - intros key w. split; [done|]. intros meta. apply listExcept_elem.
  - intros now su text name w c old Ht Hn Hc Hle Hok Hold Hkey w'. subst w'.
    rewrite (scan_success now su text name w c) by done. cbn [fst snd].
    set (w3 := persisted now (session_id su) text name w).
    change (listExcept ?k (with_console _ w3)) with (listExcept k w3).
    change (scanMatch text (with_console _ w3)) with (scanMatch text w3).
    change (scanLine text name (with_console _ w3)) with (scanLine text name w3).
    cbn zeta. rewrite Hkey. split_and!; try done.
    + cbn. apply lookup_insert_eq.
    + intros (d & _ & Hne & Heq)%listExcept_elem.
      apply (f_equal meta_filePath) in Heq. cbn in Heq. congruence.
    + intros meta (d & _ & Hne & ->)%listExcept_elem. done.
Qed.

Lemma listExcept_excludes_colliding_key_witness :
  let w' := (scan 1000 (Some sample_session) "first body" "a.txt" collision_world).2 in
  files w' !! path_join uploadDir "1000_a.txt" = Some "first body"
  ∧ listExcept "1000_a.txt" w' =
      [{| meta_filePath := "2_b.txt"; meta_fileName := "b.txt" |}]
  ∧ (scan 1000 (Some sample_session) "first body" "a.txt" collision_world).1 =
      {| status_code := 200; body := ScanResult 1000 4 "a.txt" [] |}.
Proof.
  intros w'.
  destruct (proj2 listExcept_excludes_colliding_key 1000%Z sample_session
              "first body" "a.txt" collision_world 5%Z
              (sample_doc 1 "1000_a.txt" "a.txt")) as (Hf & _ & _ & Hr & _).
  - discriminate.
  - discriminate.
  - reflexivity.
  - lia.
  - vm_compute. set_solver.
  - vm_compute. set_solver.
  - vm_compute. reflexivity.
  - split_and!; [exact Hf | by vm_compute | rewrite Hr; by vm_compute].
Defined.

(** ** The handler run alone is the handler run step by step *)

Lemma scan_run_responded now fuel r w :
  scan_run now fuel (Responded r) w = (Responded r, w).
Proof. induction fuel as [|fuel IH]; [done|]. cbn. exact IH. Qed.

Lemma scan_run_read now fuel su text name c docId docs ms w :
  length docs < fuel →
  scan_run now fuel (AwaitRead su text name c docId docs ms) w =
    (Responded {| status_code := 200;
                  body := ScanResult docId (c - 1) name
                            (compareLoop text name docs (ms, w)).1 |},
     log (LogMatches (compareLoop text name docs (ms, w)).1)
       (compareLoop text name docs (ms, w)).2).
Proof.
  revert fuel ms w. induction docs as [|doc docs IH]; intros fuel ms w Hfuel.
  - destruct fuel as [|fuel]; [cbn in Hfuel; lia|].
    cbn. apply scan_run_responded.
  - destruct fuel as [|fuel]; [cbn in Hfuel; lia|].
    cbn [scan_run scan_step]. unfold compareLoop. cbn [foldl].
    destruct (compareStep text name doc (ms, w)) as [ms' w'].
    apply IH. cbn in Hfuel. lia.
Qed.

Lemma length_listExcept_persisted now uid text name w :
  length (listExcept (savedFileName now name) (persisted now uid text name w))
    ≤ length (documents w).
Proof.
  unfold listExcept, persisted, insertDocument, with_documents; cbn [documents].
  rewrite length_fmap, filter_app, length_app.
  rewrite filter_cons_False, filter_nil by (cbn; auto).
  cbn [length]. rewrite Nat.add_0_r. apply length_filter.
Qed.

(** Enough steps of the task, with no other request in between, are the
    handler [scan]. *)
Theorem scan_run_scan now session text name w fuel :
  6 + length (documents w) ≤ fuel →
  scan_run now fuel (startScan session text name) w =
    (Responded (scan now session text name w).1, (scan now session text name w).2).
Proof.
  intros Hfuel. unfold startScan, scan.
  destruct session as [su|]; [|apply scan_run_responded].
  destruct (bool_decide (text = "") || bool_decide (name = ""));
    [apply scan_run_responded|].
  destruct fuel as [|fuel]; [lia|]. cbn [scan_run scan_step].
  destruct (selectCredits _ w) as [c|]; [|apply scan_run_responded].
  case_bool_decide; [apply scan_run_responded|].
  destruct fuel as [|fuel]; [lia|]. cbn [scan_run scan_step].
  destruct fuel as [|fuel]; [lia|]. cbn [scan_run scan_step].
  unfold writeFile. case_decide as Hbad; [apply scan_run_responded|].
  destruct fuel as [|fuel]; [lia|]. cbn [scan_run scan_step].
  destruct fuel as [|fuel]; [lia|]. cbn [scan_run scan_step].
  fold (persisted now (session_id su) text name w).
  rewrite scan_run_read.
  - by destruct (compareLoop _ _ _ _).
  - pose proof (length_listExcept_persisted now (session_id su) text name w). lia.
Qed.

(** ** Two scans of one user in flight *)

(** Whatever the world, two handlers of one user that both read the
    balance [c ≥ 1] before either deducts both get past the check, and the
    balance drops by two. *)
Lemma interleaved_checks_deduct_twice su text1 name1 text2 name2 w c n1 n2 n3 n4 :
  selectCredits (session_id su) w = Some c → (1 ≤ c)%Z →
  run_schedule [(0, n1); (1, n2); (0, n3); (1, n4)]
    ([AwaitCredits su text1 name1; AwaitCredits su text2 name2], w) =
    ([AwaitWrite su text1 name1 c n3; AwaitWrite su text2 name2 c n4],
     deductCredit (session_id su) (deductCredit (session_id su) w))
  ∧ selectCredits (session_id su)
      (deductCredit (session_id su) (deductCredit (session_id su) w)) =
      Some (c - 2)%Z.
Proof.
  intros Hc Hle. split.
  - assert (Hstep : ∀ now text name,
      scan_step now (AwaitCredits su text name) w = (AwaitDeduct su text name c, w)).
    { intros now text name. cbn [scan_step].
      by rewrite Hc, bool_decide_eq_false_2 by lia. }
    unfold run_schedule. cbn [foldl].
    unfold pool_step at 4. cbn [lookup list_lookup]. rewrite Hstep.
    cbn [insert list_insert].
    unfold pool_step at 3. cbn [lookup list_lookup]. rewrite Hstep.
    cbn [insert list_insert]. done.
  - erewrite selectCredits_deductCredit;
      [|by apply selectCredits_deductCredit]. f_equal. lia.
Qed.

(** C1. With a balance of 1 and the two handlers resumed in turn, both
    read the balance before either deducts: both scans answer 200 and the
    balance ends at -1. *)
Theorem concurrent_scans_overdraw :
  let cfg := run_schedule race_schedule (race_tasks, sample_world 1 [] [] []) in
  response_of <$> cfg.1 =
    [Some {| status_code := 200; body := ScanResult 1001 0 "a.txt" [] |};
     Some {| status_code := 200; body := ScanResult 1002 0 "b.txt" [] |}]
  ∧ selectCredits 1 cfg.2 = Some (-1)%Z
  ∧ filePath <$> documents cfg.2 = ["1001_a.txt"; "1002_b.txt"].
Proof. by vm_compute. Qed.

(** Run one after the other, the same two scans end as the spec says. *)
Example serial_scans_reject_second :
  let cfg := run_schedule serial_schedule (race_tasks, sample_world 1 [] [] []) in
  response_of <$> cfg.1 =
    [Some {| status_code := 200; body := ScanResult 1001 0 "a.txt" [] |};
     Some InsufficientCredit]
  ∧ selectCredits 1 cfg.2 = Some 0%Z.
Proof. by vm_compute. Qed.

(** ** Deciding a credit request *)

(** The approval looks the request up by id alone: whatever its status, the
    amount is granted and the status set to approved. *)
Lemma approve_ignores_status session requestId w request :
  is_admin session = true →
  selectRequest requestId w = Some request →
  (approve session requestId w).2 =
    updateStatus approved requestId
      (grant (amount request) (request_userId request) w)
  ∧ status_code (approve session requestId w).1 = 200%Z.
Proof. intros Hadmin Hreq. unfold approve. by rewrite Hadmin, Hreq. Qed.

(** The rejection does not look the request up at all. *)
Lemma reject_ignores_status session requestId w :
  is_admin session = true →
  reject session requestId w =
    (respond 200 "Credit request rejected successfully!",
     updateStatus rejected requestId w).
Proof. intros Hadmin. unfold reject. by rewrite Hadmin. Qed.

(** C2. A pending request of 5 credits approved twice: the second approval
    answers 200 as the first did and grants the 5 credits again (20, 25,
    30); a rejection that follows answers 200 too and turns the approved
    request into a rejected one. *)
Theorem decide_twice_grants_twice :
  let first := approve (Some admin_session) 1 request_world in
  let second := approve (Some admin_session) 1 first.2 in
  let third := reject (Some admin_session) 1 second.2 in
  selectCredits 1 request_world = Some 20%Z
  ∧ status_code first.1 = 200%Z
  ∧ selectCredits 1 first.2 = Some 25%Z
  ∧ status <$> selectRequest 1 first.2 = Some approved
  ∧ status_code second.1 = 200%Z
  ∧ selectCredits 1 second.2 = Some 30%Z
  ∧ status_code third.1 = 200%Z
  ∧ status <$> selectRequest 1 third.2 = Some rejected.
Proof. by vm_compute. Qed.

(** ** Balances never go below zero *)

Lemma credits_nonneg_alter f id w :
  (∀ u, users w !! id = Some u → (0 ≤ credits u)%Z → (0 ≤ credits (f u))%Z) →
  credits_nonneg w → credits_nonneg (with_users (alter f id) w).
Proof.
  intros Hf Hw. unfold credits_nonneg, with_users; cbn [users].
  intros j u' [[<- (u & Hu & ->)]|[_ Hu]]%lookup_alter_Some.
  - apply Hf; [done|]. by apply (Hw id).
  - by apply (Hw j).
Qed.

Lemma credits_nonneg_deductCredit id w c :
  selectCredits id w = Some c → (1 ≤ c)%Z →
  credits_nonneg w → credits_nonneg (deductCredit id w).
Proof.
  intros Hc Hle. apply credits_nonneg_alter. intros u Hu _.
  unfold selectCredits in Hc. rewrite Hu in Hc. injection Hc as <-. cbn. lia.
Qed.

Lemma credits_nonneg_grant amt id w :
  (0 ≤ amt)%Z → credits_nonneg w → credits_nonneg (grant amt id w).
Proof. intros Hamt. apply credits_nonneg_alter. intros u _ Hu. cbn. lia. Qed.

Lemma credits_nonneg_resetAll w :
  credits_nonneg w → credits_nonneg (resetAll w).
Proof.
  intros Hw. unfold credits_nonneg, resetAll, with_users; cbn [users].
  intros j u' (u & <- & Hu)%lookup_fmap_Some.
  destruct (decide (role u = user)); cbn; [lia|]. by apply (Hw j).
Qed.

Lemma credits_nonneg_same_users w w' :
  users w' = users w → credits_nonneg w → credits_nonneg w'.
Proof. unfold credits_nonneg. by intros ->. Qed.

Lemma requests_positive_same_requests w w' :
  credit_requests w' = credit_requests w →
  requests_positive w → requests_positive w'.
Proof. unfold requests_positive. by intros ->. Qed.

Lemma requests_positive_updateStatus s id w :
  requests_positive w → requests_positive (updateStatus s id w).
Proof.
  intros Hw. unfold requests_positive, updateStatus, with_requests.
  cbn [credit_requests].
  intros j r' [[<- (r & Hr & ->)]|[_ Hr]]%lookup_alter_Some.
  - cbn. by apply (Hw id).
  - by apply (Hw j).
Qed.

Lemma scan_world_cases now session text name w :
  (scan now session text name w).2 = w
  ∨ ∃ su c, selectCredits (session_id su) w = Some c ∧ (1 ≤ c)%Z
      ∧ users (scan now session text name w).2 = users (deductCredit (session_id su) w)
      ∧ credit_requests (scan now session text name w).2 = credit_requests w.
Proof.
  unfold scan. destruct session as [su|]; [|by left].
  destruct (bool_decide (text = "") || bool_decide (name = "")); [by left|].
  destruct (selectCredits _ w) as [c|] eqn:Hc; [|by left].
  case_bool_decide as Hlt; [by left|].
  right. exists su, c. split_and!; [done|lia| |].
  - unfold writeFile. case_decide; [done|].
    rewrite compareLoop_spec. done.
  - unfold writeFile. case_decide; [done|].
    rewrite compareLoop_spec. done.
Qed.

(** Every operation keeps the balances at or above zero and the requested
    amounts at or above one. *)
Lemma exec_invariant w op :
  credits_nonneg w → requests_positive w →
  credits_nonneg (exec w op) ∧ requests_positive (exec w op).
Proof.
  intros Hc Hr. destruct op as [hashed name mail pass|name mail adminPassword|
    now session text name|session amt|session requestId|session requestId|];
    cbn [exec].
  - unfold register.
    destruct (_ || _); [done|]. case_bool_decide; [done|]. cbn [snd].
    split; [|done]. unfold credits_nonneg; cbn [users].
    apply map_Forall_insert_2; [cbn; lia|done].
  - unfold createAdminUser. case_bool_decide; [done|].
    destruct adminPassword as [hashed|]; [|done].
    split; [|done]. unfold credits_nonneg; cbn [users].
    apply map_Forall_insert_2; [cbn; lia|done].
  - destruct (scan_world_cases now session text name w)
      as [->|(su & c & Hsel & Hle & Hu & Hq)]; [done|].
    split.
    + apply (credits_nonneg_same_users (deductCredit (session_id su) w)); [done|].
      by apply (credits_nonneg_deductCredit _ _ c).
    + by apply (requests_positive_same_requests w).
  - unfold requestCredits. destruct session as [su|]; [|done].
    destruct (bool_decide (amt = 0)%Z || bool_decide (amt < 1)%Z) eqn:Hamt; [done|].
    apply orb_false_elim in Hamt as [_ Hlt%bool_decide_eq_false].
    cbn [snd]. split; [done|].
    unfold requests_positive; cbn [credit_requests].
    apply map_Forall_insert_2; [cbn; lia|done].
  - unfold approve. destruct (negb (is_admin session)); [done|].
    destruct (selectRequest requestId w) as [request|] eqn:Hreq; [|done].
    cbn [snd]. split.
    + apply (credits_nonneg_same_users
               (grant (amount request) (request_userId request) w)); [done|].
      apply credits_nonneg_grant; [|done].
      pose proof (Hr requestId request Hreq) as Hpos. cbn in Hpos. lia.
    + by apply requests_positive_updateStatus.
  - unfold reject. destruct (negb (is_admin session)); [done|].
    cbn [snd]. split; [done|]. by apply requests_positive_updateStatus.
  - unfold resetCreditsDaily. split; [|done].
    apply (credits_nonneg_same_users (resetAll w)); [done|].
    by apply credits_nonneg_resetAll.
Qed.

Lemma run_ops_invariant ops w :
  credits_nonneg w → requests_positive w →
  credits_nonneg (run_ops ops w) ∧ requests_positive (run_ops ops w).
Proof.
  revert w. induction ops as [|op ops IH]; intros w Hc Hr; [done|].
  cbn [run_ops foldl]. apply IH; by apply exec_invariant.
Qed.



(** From the empty database, whatever the operations. *)
Corollary credits_nonneg_from_empty ops id c :
  selectCredits id (run_ops ops empty_world) = Some c → (0 ≤ c)%Z.
Proof.
  intros Hsel.
  destruct (run_ops_invariant ops empty_world) as [Hc _].
  - apply map_Forall_empty.
  - apply map_Forall_empty.
  - unfold selectCredits in Hsel.
    destruct (users (run_ops ops empty_world) !! id) as [u|] eqn:Hu; [|done].
    injection Hsel as <-. by apply (Hc id).
Qed.

(** * Further properties of the code *)

(** ** The edit distance as a metric *)

Section DistanceMetric.
Context {A : Type} `{EqDecision A}.
Implicit Types a b : list A.

Import Levenshtein.

Lemma subst_cost_sym (x y : A) : subst_cost x y = subst_cost y x.
Proof. unfold subst_cost. repeat case_decide; congruence. Qed.

Lemma editDistance_sym a b : editDistance a b = editDistance b a.
Proof.
  revert b. induction a as [|x a IHa]; intros b.
  - by rewrite editDistance_nil_r.
  - induction b as [|y b IHb].
    + by rewrite editDistance_nil_r.
    + rewrite !editDistance_cons_cons.
      rewrite (IHa (y :: b)), IHb, (IHa b), (subst_cost_sym x y).
      unfold min3. lia.
Qed.

Lemma editDistance_zero a b : editDistance a b = 0 → a = b.
Proof.
  revert b. induction a as [|x a IH]; intros b.
  - cbn. by destruct b.
  - destruct b as [|y b]; [done|].
    rewrite editDistance_cons_cons. unfold min3, subst_cost.
    case_decide as Hxy; [|lia]. intros Hd. subst y. f_equal. apply IH. lia.
Qed.

Lemma editDistance_self a : editDistance a a = 0.
Proof.
  induction a as [|x a IH]; [done|].
  rewrite editDistance_cons_cons, IH. unfold subst_cost, min3.
  rewrite decide_True by done. lia.
Qed.

Lemma editDistance_ge_length_diff a b :
  length a - length b ≤ editDistance a b ∧ length b - length a ≤ editDistance a b.
Proof.
  revert b. induction a as [|x a IHa]; intros b.
  - cbn [editDistance length]. lia.
  - induction b as [|y b IHb].
    + rewrite editDistance_nil_r. cbn [length]. lia.
    + rewrite editDistance_cons_cons.
      pose proof (IHa (y :: b)) as H1. pose proof (IHa b) as H2.
      unfold min3. cbn [length] in *. lia.
Qed.

End DistanceMetric.

(** ** The similarity metric, continued *)

Lemma chars_inj a b : chars a = chars b → a = b.
Proof.
  unfold chars. intros Heq.
  rewrite <- (String.string_of_list_ascii_of_string a),
          <- (String.string_of_list_ascii_of_string b).
  by rewrite Heq.
Qed.

(** The test [similarity > 0.6] in whole numbers: the score
    [1 - d / m] passes exactly when [10 * d < 4 * m]. *)
Lemma above_threshold_ratio (d m : nat) :
  0 < m →
  above_threshold (1 - inject_Z (Z.of_nat d) / inject_Z (Z.of_nat m))%Q = true
  ↔ 10 * d < 4 * m.
Proof.
  intros Hm. rewrite above_threshold_iff.
  destruct (Z.of_nat m) as [|p|p] eqn:Hp; try lia.
  rewrite <- Qmake_Qdiv.
  unfold Qlt, Qminus, Qplus, Qopp; cbn [Qnum Qden]. lia.
Qed.

Lemma similarity_sym a b :
  calculateSimilarity a b = calculateSimilarity b a.
Proof.
  unfold calculateSimilarity.
  rewrite (orb_comm (bool_decide (String.length a = 0))).
  rewrite (Nat.max_comm (String.length a)).
  by rewrite !get_editDistance, (editDistance_sym (chars a)).
Qed.

Lemma similarity_one_iff a b :
  a ≠ "" → b ≠ "" →
  (calculateSimilarity a b == 1)%Q ↔ a = b.
Proof.
  intros Ha Hb. rewrite calculateSimilarity_nonempty by done.
  rewrite get_editDistance.
  assert (Hm : 0 < String.length a `max` String.length b).
  { destruct a; [done|]. cbn. lia. }
  set (d := Levenshtein.editDistance (chars a) (chars b)).
  set (m := String.length a `max` String.length b) in *.
  assert (Hq : (1 - inject_Z (Z.of_nat d) / inject_Z (Z.of_nat m) == 1)%Q ↔ d = 0).
  { destruct (Z.of_nat m) as [|p|p] eqn:Hp; try lia.
    rewrite <- Qmake_Qdiv.
    unfold Qeq, Qminus, Qplus, Qopp; cbn [Qnum Qden]. lia. }
  rewrite Hq. subst d. split.
  - intros Hd. by apply chars_inj, editDistance_zero.
  - intros ->. apply editDistance_self.
Qed.

Lemma threshold_distance a b :
  a ≠ "" → b ≠ "" →
  above_threshold (calculateSimilarity a b) = true
  ↔ 10 * Levenshtein.editDistance (chars a) (chars b)
      < 4 * (String.length a `max` String.length b).
Proof.
  intros Ha Hb. rewrite calculateSimilarity_nonempty by done.
  rewrite get_editDistance. apply above_threshold_ratio.
  destruct a; [done|]. cbn. lia.
Qed.

(** X1. The similarity does not depend on the order of the two texts. *)
Theorem calculateSimilarity_sym a b :
  calculateSimilarity a b = calculateSimilarity b a.
Proof. apply similarity_sym. Qed.

(** X2. For non-empty texts the similarity is 1 exactly when the two
    texts are the same text. *)
Theorem calculateSimilarity_one_iff a b :
  a ≠ "" → b ≠ "" →
  (calculateSimilarity a b == 1)%Q ↔ a = b.
Proof. apply similarity_one_iff. Qed.

Lemma calculateSimilarity_one_iff_witness :
  (calculateSimilarity "kitten" "kitten" == 1)%Q ↔ "kitten" = "kitten".
Proof. apply (calculateSimilarity_one_iff "kitten" "kitten"); discriminate. Defined.

(** X3. In whole numbers: two non-empty texts pass the test
    [similarity > 0.6] exactly when ten times their edit distance is less
    than four times the length of the longer one. *)
Theorem above_threshold_distance a b :
  a ≠ "" → b ≠ "" →
  above_threshold (calculateSimilarity a b) = true
  ↔ 10 * Levenshtein.editDistance (chars a) (chars b)
      < 4 * (String.length a `max` String.length b).
Proof. apply threshold_distance. Qed.

Lemma above_threshold_distance_witness :
  above_threshold (calculateSimilarity "kitten" "sitting") = true
  ↔ 10 * Levenshtein.editDistance (chars "kitten") (chars "sitting")
      < 4 * (String.length "kitten" `max` String.length "sitting").
Proof. apply (above_threshold_distance "kitten" "sitting"); discriminate. Defined.

(** X4. A text whose length is at most six tenths of the length of the
    other never passes the test, whatever the two texts say. *)
Theorem above_threshold_needs_similar_length a b :
  10 * (String.length a `min` String.length b)
    ≤ 6 * (String.length a `max` String.length b) →
  above_threshold (calculateSimilarity a b) = false.
Proof.
  intros Hlen.
  destruct (decide (a = "")) as [->|Ha]; [done|].
  destruct (decide (b = "")) as [->|Hb].
  { rewrite similarity_sym. done. }
  apply not_true_is_false. rewrite threshold_distance by done.
  pose proof (editDistance_ge_length_diff (chars a) (chars b)) as [H1 H2].
  rewrite !length_chars in H1, H2. lia.
Qed.

Lemma above_threshold_needs_similar_length_witness :
  above_threshold (calculateSimilarity "abc" "abcdef") = false.
Proof.
  apply (above_threshold_needs_similar_length "abc" "abcdef"). cbn. lia.
Defined.

(** ** The percentage of a reported match *)

Lemma hundredths_floor similarity :
  hundredths similarity = Qfloor (similarity * 100 * 100 + (1 # 2))%Q.
Proof. unfold hundredths, Qfloor. by destruct (_ + _)%Q. Qed.


Lemma hundredths_proper s t : (s == t)%Q → hundredths s = hundredths t.
Proof. intros Heq. rewrite !hundredths_floor. by rewrite Heq. Qed.


(** A stored body equal to the submitted text is reported with 100.00%. *)
Lemma scanMatch_identical text w doc :
  text ≠ "" →
  readFile (path_join uploadDir (meta_filePath doc)) w = Some text →
  scanMatch text w doc =
    Some {| match_fileName := meta_fileName doc; match_similarity := "100.00%" |}.
Proof.
  intros Ht Hread. unfold scanMatch. rewrite Hread. cbn zeta.
  assert (Hone : (calculateSimilarity text text == 1)%Q)
    by by apply similarity_one_iff.
  assert (Habove : above_threshold (calculateSimilarity text text) = true).
  { apply above_threshold_iff. by rewrite Hone. }
  rewrite Habove. do 2 f_equal. unfold percent.
  rewrite (hundredths_proper _ 1 Hone). by vm_compute.
Qed.

(** ** The four ways a scan of a logged-in user ends *)

Lemma scan_outcome now su text name w :
  scan now (Some su) text name w = (ValidationError, w)
  ∨ scan now (Some su) text name w = (InsufficientCredit, w)
  ∨ (∃ c, selectCredits (session_id su) w = Some c ∧ (1 ≤ c)%Z
       ∧ scan now (Some su) text name w =
           (InternalServerError, log LogError (deductCredit (session_id su) w)))
  ∨ (∃ c matches lines,
       selectCredits (session_id su) w = Some c ∧ (1 ≤ c)%Z
       ∧ scan now (Some su) text name w =
           ({| status_code := 200; body := ScanResult now (c - 1) name matches |},
            with_console (λ old, old ++ lines)
              (persisted now (session_id su) text name w))).
Proof.
  destruct (bool_decide (text = "") || bool_decide (name = "")) eqn:Hv.
  { left. unfold scan. by rewrite Hv. }
  apply orb_false_elim in Hv as [Ht%bool_decide_eq_false Hn%bool_decide_eq_false].
  destruct (selectCredits (session_id su) w) as [c|] eqn:Hc.
  2: { right; left. unfold scan. by rewrite valid_input, Hc. }
  destruct (decide (c < 1)%Z) as [Hlt|Hge].
  { right; left. unfold scan.
    by rewrite valid_input, Hc, bool_decide_eq_true_2. }
  destruct (decide (path_join uploadDir (savedFileName now name) ∈ faulty w))
    as [Hbad|Hok].
  - right; right; left. exists c. split_and!; [done|lia|].
    unfold scan. rewrite valid_input, Hc by done.
    rewrite bool_decide_eq_false_2 by done.
    unfold writeFile. by rewrite decide_True.
  - right; right; right. eexists c, _, _. split_and!; [done|lia|].
    apply scan_success; [done|done|done|lia|done].
Qed.

Lemma users_persisted now uid text name w :
  users (persisted now uid text name w) = users (deductCredit uid w).
Proof. done. Qed.

Lemma lookup_deductCredit_ne uid j w :
  uid ≠ j → users (deductCredit uid w) !! j = users w !! j.
Proof. intros Hne. unfold deductCredit, with_users; cbn. by apply lookup_alter_ne. Qed.

(** X7. A scan answers 200, 400, 401, 403 or 500, and when it answers 400,
    401 or 403 nothing at all has changed: no balance, no document, no
    stored body, no console line. *)
Theorem scan_rejected_changes_nothing now session text name w :
  status_code (scan now session text name w).1 ∈ [200; 400; 401; 403; 500]%Z
  ∧ (status_code (scan now session text name w).1 ∈ [400; 401; 403]%Z →
     (scan now session text name w).2 = w).
Proof.
  destruct session as [su|]; [|cbn; split; [set_solver|done]].
  destruct (scan_outcome now su text name w)
    as [->|[->|[(c & _ & _ & ->)|(c & ms & ls & _ & _ & ->)]]]; cbn [fst snd];
    (split; [cbn; set_solver|]); try done.
  - cbn. rewrite !elem_of_cons, elem_of_nil. intros [?|[?|[?|[]]]]; done.
  - cbn. rewrite !elem_of_cons, elem_of_nil. intros [?|[?|[?|[]]]]; done.
Qed.

Lemma scan_rejected_changes_nothing_witness :
  (scan 1000 (Some sample_session) "" "a.txt" office_world).2 = office_world.
Proof.
  apply (proj2 (scan_rejected_changes_nothing 1000%Z (Some sample_session)
                  "" "a.txt" office_world)).
  vm_compute. set_solver.
Defined.



(** ** What a scan leaves in place *)

Lemma scan_documents now su text name w :
  documents (scan now (Some su) text name w).2 =
    documents w ++
      (if decide (status_code (scan now (Some su) text name w).1 = 200%Z)
       then [new_row now su name w] else []).
Proof.
  destruct (scan_outcome now su text name w)
    as [->|[->|[(c & _ & _ & ->)|(c & ms & ls & _ & _ & ->)]]]; cbn [fst snd];
    rewrite ?decide_True, ?decide_False by done; cbn; by rewrite ?app_nil_r.
Qed.



(** X10. A scan changes no listing of [/user/documents] but that of the
    user of the session, and that one only when it answers 200: the new
    document is then added at its end. *)
Theorem scan_user_documents now su text name w :
  let r := (scan now (Some su) text name w).1 in
  let w' := (scan now (Some su) text name w).2 in
  (∀ other, session_id other ≠ session_id su →
     userDocuments (Some other) w' = userDocuments (Some other) w)
  ∧ (status_code r ≠ 200%Z →
     userDocuments (Some su) w' = userDocuments (Some su) w)
  ∧ (status_code r = 200%Z →
     ∃ old, userDocuments (Some su) w = inr old
       ∧ userDocuments (Some su) w' =
           inr (old ++ [listing_of (new_row now su name w)])).
Proof.
  intros r w'. subst r w'. unfold userDocuments. rewrite scan_documents.
  split_and!.
  - intros other Hne. rewrite filter_app. case_decide.
    + rewrite filter_cons_False, filter_nil by (cbn; congruence).
      by rewrite app_nil_r.
    + by rewrite filter_nil, app_nil_r.
  - intros Hno. by rewrite decide_False, app_nil_r.
  - intros H200. rewrite decide_True by done. eexists. split; [done|].
    rewrite filter_app, filter_cons_True, filter_nil by done.
    by rewrite fmap_app.
Qed.

Lemma scan_user_documents_witness :
  userDocuments (Some {| session_id := 3; session_role := user |})
    (scan 1000 (Some sample_session) "alpha" "new.txt" office_world).2 =
  userDocuments (Some {| session_id := 3; session_role := user |}) office_world.
Proof.
  apply (proj1 (scan_user_documents 1000 sample_session "alpha" "new.txt"
                  office_world)).
  cbn. lia.
Defined.

(** ** A run of scans and the balance *)

Lemma count_status_cons code r responses :
  count_status code (r :: responses) =
    (if decide (status_code r = code) then 1 else 0) + count_status code responses.
Proof.
  unfold count_status. rewrite filter_cons. by case_decide.
Qed.

(** X11. Scans of one user run one after the other: those that answer 200
    or 500 are never more than the balance at the start, and the balance at
    the end is the balance at the start less their number (each costs one
    credit; the others cost nothing). *)
Theorem scans_within_budget su requests w c :
  selectCredits (session_id su) w = Some c → (0 ≤ c)%Z →
  let out := scans su requests w in
  let used := count_status 200 out.1 + count_status 500 out.1 in
  (Z.of_nat used ≤ c)%Z
  ∧ selectCredits (session_id su) out.2 = Some (c - Z.of_nat used)%Z.
Proof.
  revert w c. induction requests as [|r requests IH]; intros w c Hc Hle.
  - cbn. split; [lia|]. rewrite Hc. f_equal. lia.
  - cbn [scans].
    destruct (scan_outcome (request_now r) su (request_text r) (request_name r) w)
      as [Hs|[Hs|[(c' & Hc' & Hle' & Hs)|(c' & ms & ls & Hc' & Hle' & Hs)]]];
      rewrite Hs.
    + specialize (IH w c Hc Hle).
      destruct (scans su requests w) as [rs w']. cbn [fst snd] in *.
      rewrite !count_status_cons. cbn. rewrite !decide_False by done. done.
    + specialize (IH w c Hc Hle).
      destruct (scans su requests w) as [rs w']. cbn [fst snd] in *.
      rewrite !count_status_cons. cbn. rewrite !decide_False by done. done.
    + assert (c' = c) as -> by congruence.
      specialize (IH (log LogError (deductCredit (session_id su) w)) (c - 1)%Z).
      destruct (scans su requests _) as [rs w']. cbn [fst snd] in *.
      destruct IH as [IH1 IH2];
        [by apply (selectCredits_deductCredit _ w)|lia|].
      rewrite !count_status_cons. cbn.
      rewrite decide_False, decide_True by done.
      split; [lia|]. rewrite IH2. f_equal. lia.
    + assert (c' = c) as -> by congruence.
      specialize (IH (with_console (λ old, old ++ ls)
                        (persisted (request_now r) (session_id su)
                           (request_text r) (request_name r) w)) (c - 1)%Z).
      destruct (scans su requests _) as [rs w']. cbn [fst snd] in *.
      destruct IH as [IH1 IH2];
        [by apply (selectCredits_deductCredit _ w)|lia|].
      rewrite !count_status_cons. cbn.
      rewrite decide_True, decide_False by done.
      split; [lia|]. rewrite IH2. f_equal. lia.
Qed.

Lemma scans_within_budget_witness :
  let out := scans sample_session sample_requests (sample_world 2 [] [] []) in
  status_code <$> out.1 = [200; 200; 400; 403]%Z
  ∧ selectCredits 1 out.2 = Some 0%Z.
Proof.
  intros out. split; [by vm_compute|].
  destruct (scans_within_budget sample_session sample_requests
              (sample_world 2 [] [] []) 2) as [_ Hc].
  - reflexivity.
  - lia.
  - refine (eq_trans Hc _). by vm_compute.
Defined.


(** ** Registration and login *)

Lemma register_cases hashed name mail pass w :
  (register hashed name mail pass w).2 = w
    ∧ status_code (register hashed name mail pass w).1 = 400%Z
  ∨ name ≠ "" ∧ mail ≠ "" ∧ pass ≠ ""
    ∧ (∀ i u, users w !! i = Some u → email u ≠ mail ∧ username u ≠ name)
    ∧ (register hashed name mail pass w).1 =
        respond 201 "User registered successfully!"
    ∧ users (register hashed name mail pass w).2 =
        <[(users_seq w + 1)%Z :=
            {| username := name; email := mail; password := hashed;
               role := user; credits := 20 |}]> (users w)
    ∧ users_seq (register hashed name mail pass w).2 = (users_seq w + 1)%Z.
Proof.
  unfold register.
  destruct (bool_decide (name = "") || bool_decide (mail = "") ||
            bool_decide (pass = "")) eqn:Hv; [by left|].
  apply orb_false_elim in Hv as [Hv Hp%bool_decide_eq_false].
  apply orb_false_elim in Hv as [Hn%bool_decide_eq_false Hm%bool_decide_eq_false].
  case_bool_decide as Hex; [by left|].
  right. split_and!; try done.
  intros i u Hu. split; intros Heq; apply Hex; exists i, u; auto.
Qed.

(** X12. Registration keeps the user names and the e-mail addresses of the
    table pairwise distinct and every key at or below the counter, and it
    leaves every row that was there as it was. *)
Theorem register_keeps_users hashed name mail pass w :
  unique_identities w → ids_below_seq w →
  let w' := (register hashed name mail pass w).2 in
  unique_identities w' ∧ ids_below_seq w'
  ∧ ∀ i u, users w !! i = Some u → users w' !! i = Some u.
Proof.
  intros Huniq Hids w'. subst w'.
  destruct (register_cases hashed name mail pass w)
    as [[-> _]|(_ & _ & _ & Hfresh & _ & Hu & Hseq)]; [done|].
  assert (Hnew : users w !! (users_seq w + 1)%Z = None).
  { destruct (users w !! (users_seq w + 1)%Z) as [u|] eqn:Hu'; [|done].
    apply Hids in Hu'. lia. }
  split_and!.
  - unfold unique_identities. rewrite Hu. intros i j u v Hi Hj Hsame.
    apply lookup_insert_Some in Hi as [[<- <-]|[Hi1 Hi2]];
      apply lookup_insert_Some in Hj as [[<- <-]|[Hj1 Hj2]]; try done.
    + destruct (Hfresh j v Hj2) as [He Hn]. cbn in Hsame.
      destruct Hsame as [Hs|Hs]; congruence.
    + destruct (Hfresh i u Hi2) as [He Hn]. cbn in Hsame.
      destruct Hsame as [Hs|Hs]; congruence.
    + by apply (Huniq i j u v).
  - unfold ids_below_seq. rewrite Hu, Hseq. intros i u.
    intros [[<- _]|[_ Hi]]%lookup_insert_Some; [lia|].
    apply Hids in Hi. lia.
  - intros i u Hi. rewrite Hu. rewrite lookup_insert_ne; [done|].
    intros <-. congruence.
Qed.

Lemma register_keeps_users_witness :
  users (register "$2b$10$pw" "carol" "carol@example.com" "pw" empty_world).2 !! 1%Z =
    Some {| username := "carol"; email := "carol@example.com";
            password := "$2b$10$pw"; role := user; credits := 20 |}
  ∧ unique_identities
      (register "$2b$10$pw2" "dave" "dave@example.com" "pw2"
         (register "$2b$10$pw" "carol" "carol@example.com" "pw" empty_world).2).2.
Proof.
  assert (Hu : unique_identities empty_world) by (intros i j u v Hi; done).
  assert (Hi : ids_below_seq empty_world) by (intros i u Hi; done).
  destruct (register_keeps_users "$2b$10$pw" "carol" "carol@example.com" "pw"
              empty_world Hu Hi) as (Hu1 & Hi1 & _).
  split; [by vm_compute|].
  apply (register_keeps_users "$2b$10$pw2" "dave" "dave@example.com" "pw2" _ Hu1 Hi1).
Defined.

(** X13. Once a registration has gone through, a later registration under
    the same user name or the same e-mail address is refused with 400 and
    changes nothing. *)
Theorem register_refuses_duplicate hashed name mail pass w hashed' name' mail' pass' :
  status_code (register hashed name mail pass w).1 = 201%Z →
  name' = name ∨ mail' = mail →
  let w1 := (register hashed name mail pass w).2 in
  status_code (register hashed' name' mail' pass' w1).1 = 400%Z
  ∧ (register hashed' name' mail' pass' w1).2 = w1.
Proof.
  intros H201 Hsame w1. subst w1.
  destruct (register_cases hashed name mail pass w)
    as [[_ H400]|(_ & _ & _ & _ & _ & Hu & _)]; [congruence|].
  unfold register at 1 3.
  destruct (bool_decide (name' = "") || bool_decide (mail' = "") ||
            bool_decide (pass' = "")); [done|].
  rewrite bool_decide_eq_true_2; [done|].
  exists (users_seq w + 1)%Z. eexists. rewrite Hu. split.
  - apply lookup_insert_eq.
  - cbn. destruct Hsame; auto.
Qed.

Lemma register_refuses_duplicate_witness :
  status_code
    (register "$2b$10$x" "carol" "other@example.com" "x"
       (register "$2b$10$pw" "carol" "carol@example.com" "pw" empty_world).2).1 = 400%Z.
Proof.
  apply (register_refuses_duplicate "$2b$10$pw" "carol" "carol@example.com" "pw"
           empty_world "$2b$10$x" "carol" "other@example.com" "x").
  - by vm_compute.
  - by left.
Defined.

Lemma selectUserByEmail_Some mail w id u :
  selectUserByEmail mail w = Some (id, u) →
  users w !! id = Some u ∧ email u = mail.
Proof.
  unfold selectUserByEmail. intros Hhd.
  assert (Hin : (id, u) ∈ filter (λ kv : Z * UserRow, email kv.2 = mail)
                           (map_to_list (users w))).
  { destruct (filter _ _) as [|x l]; [done|]. injection Hhd as ->. left. }
  apply list_elem_of_filter in Hin as [He Hin]. split; [|done].
  by apply elem_of_map_to_list.
Qed.

Lemma selectUserByEmail_None mail w :
  selectUserByEmail mail w = None →
  ∀ id u, users w !! id = Some u → email u ≠ mail.
Proof.
  unfold selectUserByEmail. intros Hhd id u Hu He.
  assert (Hin : (id, u) ∈ filter (λ kv : Z * UserRow, email kv.2 = mail)
                           (map_to_list (users w))).
  { apply list_elem_of_filter. split; [done|]. by apply elem_of_map_to_list. }
  destruct (filter _ _); [by apply elem_of_nil in Hin|done].
Qed.

(** X14. A login answers 200 only for an e-mail address some row carries
    and a password [bcrypt.compare] accepts against the hash of that row;
    the session it sets holds the key, the name, the role and the balance of
    that row. When no row carries the address it answers 400. *)
Theorem login_sound compare mail pass w :
  (status_code (login compare mail pass w).1 = 200%Z →
   ∃ id u, users w !! id = Some u ∧ email u = mail
     ∧ compare pass (password u) = true
     ∧ (login compare mail pass w).2 =
         Some {| login_id := id; login_username := username u;
                 login_role := role u; login_credits := credits u |})
  ∧ ((∀ id u, users w !! id = Some u → email u ≠ mail) →
     status_code (login compare mail pass w).1 = 400%Z
     ∧ (login compare mail pass w).2 = None).
Proof.
  unfold login. split.
  - destruct (_ || _); [done|].
    destruct (selectUserByEmail mail w) as [[id u]|] eqn:Hsel; [|done].
    apply selectUserByEmail_Some in Hsel as [Hu He].
    destruct (compare pass (password u)) eqn:Hcmp; [|done].
    intros _. by exists id, u.
  - intros Hnone. destruct (_ || _); [done|].
    destruct (selectUserByEmail mail w) as [[id u]|] eqn:Hsel; [|done].
    apply selectUserByEmail_Some in Hsel as [Hu He]. by destruct (Hnone id u).
Qed.

Lemma login_sound_witness :
  ∃ id u, users office_world !! id = Some u ∧ email u = "bob@example.com"
    ∧ sample_compare "bobpass" (password u) = true
    ∧ (login sample_compare "bob@example.com" "bobpass" office_world).2 =
        Some {| login_id := id; login_username := username u;
                login_role := role u; login_credits := credits u |}.
Proof.
  apply (proj1 (login_sound sample_compare "bob@example.com" "bobpass" office_world)).
  by vm_compute.
Defined.

(** X15. Right after a registration that went through, a login with the
    registered address opens a session of role [user] with 20 credits under
    the new key when [bcrypt.compare] accepts the password against the
    stored hash, and is refused with 401 when it does not. *)
Theorem register_then_login compare hashed name mail pass w pass' :
  status_code (register hashed name mail pass w).1 = 201%Z →
  pass' ≠ "" →
  let w1 := (register hashed name mail pass w).2 in
  login compare mail pass' w1 =
    if compare pass' hashed
    then (respond 200 "Login successful!",
          Some {| login_id := users_seq w + 1; login_username := name;
                  login_role := user; login_credits := 20 |})
    else (respond 401 "Invalid credentials!", None).
Proof.
  intros H201 Hp w1. subst w1.
  destruct (register_cases hashed name mail pass w)
    as [[_ H400]|(_ & Hm & _ & Hfresh & _ & Hu & _)]; [congruence|].
  unfold login. rewrite valid_input by done.
  destruct (selectUserByEmail mail _) as [[id u]|] eqn:Hsel.
  - apply selectUserByEmail_Some in Hsel as [Hlook He].
    rewrite Hu in Hlook.
    apply lookup_insert_Some in Hlook as [[<- <-]|[_ Hold]]; [done|].
    by destruct (Hfresh id u Hold).
  - exfalso. eapply (selectUserByEmail_None _ _ Hsel (users_seq w + 1)%Z).
    + rewrite Hu. apply lookup_insert_eq.
    + done.
Qed.

Lemma register_then_login_witness :
  login sample_compare "carol@example.com" "pw"
    (register "$2b$10$pw" "carol" "carol@example.com" "pw" office_world).2 =
    (respond 200 "Login successful!",
     Some {| login_id := 4; login_username := "carol";
             login_role := user; login_credits := 20 |}).
Proof.
  apply (register_then_login sample_compare "$2b$10$pw" "carol"
           "carol@example.com" "pw" office_world "pw").
  - by vm_compute.
  - discriminate.
Defined.

(** ** Credit requests *)





(** ** The list of pending requests *)

Lemma pendingRequests_elem w p :
  p ∈ pendingRequests w ↔
    ∃ id r u, credit_requests w !! id = Some r ∧ status r = pending
      ∧ users w !! request_userId r = Some u
      ∧ p = {| pending_id := id; pending_username := username u;
               pending_amount := amount r |}.
Proof.
  unfold pendingRequests. rewrite list_elem_of_omap. split.
  - intros ([id r] & Hin%elem_of_map_to_list & Hp). cbn in Hp.
    case_decide as Hs; [|done].
    destruct (users w !! request_userId r) as [u|] eqn:Hu; [|done].
    injection Hp as <-. by exists id, r, u.
  - intros (id & r & u & Hr & Hs & Hu & ->). exists (id, r). split.
    + by apply elem_of_map_to_list.
    + cbn. rewrite decide_True by done. by rewrite Hu.
Qed.

Lemma pendingRequests_after_decision s id w0 w' p :
  s ≠ pending →
  credit_requests w' = alter (set_status s) id (credit_requests w0) →
  (∀ j, username <$> users w' !! j = username <$> users w0 !! j) →
  p ∈ pendingRequests w' ↔ p ∈ pendingRequests w0 ∧ pending_id p ≠ id.
Proof.
  intros Hs Hreqs Hnames. rewrite !pendingRequests_elem. split.
  - intros (id' & r' & u' & Hr & Hst & Hu & ->). rewrite Hreqs in Hr.
    apply lookup_alter_Some in Hr as [[<- (r & Hr & ->)]|[Hne Hr]]; [done|].
    pose proof (Hnames (request_userId r')) as Hn. rewrite Hu in Hn.
    destruct (users w0 !! request_userId r') as [u0|] eqn:Hu0; [|done].
    injection Hn as Hn. split; [|by cbn].
    exists id', r', u0. by rewrite Hn.
  - intros [(id' & r' & u0 & Hr & Hst & Hu0 & ->) Hne]. cbn in Hne.
    pose proof (Hnames (request_userId r')) as Hn. rewrite Hu0 in Hn.
    destruct (users w' !! request_userId r') as [u'|] eqn:Hu'; [|done].
    injection Hn as Hn. exists id', r', u'. rewrite Hreqs, Hn.
    split_and!; try done. by rewrite lookup_alter_ne.
Qed.

(** X17. [/admin/credit-requests] lists a request exactly when it is
    pending and its user has a row. After an admin approves or rejects
    the request with key [id], the list is the list from before without the
    entry of key [id]: a decided request is no longer offered, and no other
    entry comes or goes. *)
Theorem decided_request_leaves_pending_list boss id w p :
  is_admin (Some boss) = true →
  (p ∈ pendingRequests (approve (Some boss) id w).2 ↔
     p ∈ pendingRequests w ∧ pending_id p ≠ id)
  ∧ (p ∈ pendingRequests (reject (Some boss) id w).2 ↔
       p ∈ pendingRequests w ∧ pending_id p ≠ id).
Proof.
  intros Hboss. split.
  - destruct (selectRequest id w) as [request|] eqn:Hreq.
    + destruct (approve_ignores_status (Some boss) id w request Hboss Hreq)
        as [-> _].
      apply (pendingRequests_after_decision approved id w); [done|done|].
      intros j. cbn [users updateStatus with_requests grant with_users].
      rewrite lookup_alter. case_decide as Hj; [|done]. subst j.
      destruct (users w !! request_userId request) as [u|]; reflexivity.
    + unfold approve. rewrite Hboss, Hreq. cbn [negb snd].
      split; [|by intros [? _]]. intros Hp. split; [done|].
      apply pendingRequests_elem in Hp as (id' & r & u & Hr & _ & _ & ->).
      cbn. intros ->. unfold selectRequest in Hreq. congruence.
  - rewrite reject_ignores_status by done. cbn [snd].
    by apply (pendingRequests_after_decision rejected id w).
Qed.

Lemma decided_request_leaves_pending_list_witness :
  pendingRequests office_world =
    [{| pending_id := 1; pending_username := "alice"; pending_amount := 5 |}]
  ∧ ({| pending_id := 1; pending_username := "alice"; pending_amount := 5 |}
       ∈ pendingRequests (approve (Some admin_session) 1 office_world).2 ↔
     {| pending_id := 1; pending_username := "alice"; pending_amount := 5 |}
       ∈ pendingRequests office_world ∧ 1%Z ≠ 1%Z).
Proof.
  split; [by vm_compute|].
  apply (proj1 (decided_request_leaves_pending_list admin_session 1 office_world
                  {| pending_id := 1; pending_username := "alice";
                     pending_amount := 5 |} eq_refl)).
Defined.

(** ** What an approval credits *)



(** ** The daily reset *)

Lemma users_resetCreditsDaily w :
  users (resetCreditsDaily w) =
    (λ u, if decide (role u = user) then set_credits 20 u else u) <$> users w.
Proof. done. Qed.

(** X19. The daily reset adds and removes no user, leaves every admin row
    as it is and changes nothing of a non-admin row but the balance, which
    becomes 20; run twice in a row it leaves the table as after the first
    run, and the number it logs is the number of non-admin rows. *)
Theorem resetCreditsDaily_effect w :
  let w' := resetCreditsDaily w in
  (∀ id, users w' !! id =
           (λ u, if decide (role u = user) then set_credits 20 u else u)
             <$> users w !! id)
  ∧ (∀ id u, users w !! id = Some u → role u = admin → users w' !! id = Some u)
  ∧ (∀ id u, users w !! id = Some u → role u = user →
       users w' !! id =
         Some {| username := username u; email := email u;
                 password := password u; role := user; credits := 20 |})
  ∧ users (resetCreditsDaily w') = users w'
  ∧ last (console w') =
      Some (LogResetDone (size (filter (λ kv, role kv.2 = user) (users w)))).
Proof.
  intros w'. subst w'. split_and!.
  - intros id. by rewrite users_resetCreditsDaily, lookup_fmap.
  - intros id u Hu Hrole. rewrite users_resetCreditsDaily, lookup_fmap, Hu.
    cbn. rewrite decide_False; [done|]. by rewrite Hrole.
  - intros id u Hu Hrole. rewrite users_resetCreditsDaily, lookup_fmap, Hu.
    cbn. rewrite decide_True by done. unfold set_credits. by rewrite Hrole.
  - rewrite !users_resetCreditsDaily. apply map_eq. intros id.
    rewrite !lookup_fmap. destruct (users w !! id) as [u|]; [|done]. cbn.
    f_equal. destruct (decide (role u = user)) as [Hr|Hr]; cbn.
    + by rewrite decide_True.
    + by rewrite decide_False.
  - unfold resetCreditsDaily, log, with_console; cbn [console].
    by rewrite last_snoc.
Qed.

Lemma resetCreditsDaily_effect_witness :
  selectCredits 2 (resetCreditsDaily office_world) = Some 9999%Z
  ∧ selectCredits 3 (resetCreditsDaily office_world) = Some 20%Z.
Proof.
  destruct (resetCreditsDaily_effect office_world) as (_ & Hadmin & Huser & _).
  unfold selectCredits. split.
  - rewrite (Hadmin 2%Z {| username := "root"; email := "root@example.com";
                           password := "$2b$10$secret"; role := admin;
                           credits := 9999 |} eq_refl eq_refl).
    reflexivity.
  - rewrite (Huser 3%Z {| username := "bob"; email := "bob@example.com";
                          password := "$2b$10$bobpass"; role := user;
                          credits := 7 |} eq_refl eq_refl).
    reflexivity.
Defined.

(** ** The admin of the start-up *)

(** X20. [createAdminUser] creates an admin at most once: after a run with
    a password set, in a table where no row carries the admin's name or
    address, there is an admin row with 9999 credits under the next key,
    and any further run, under whatever name, changes nothing. *)
Theorem createAdminUser_once name mail hashed w name' mail' password' :
  ¬ map_Exists (λ _ u, role u = admin) (users w) →
  (∀ i u, users w !! i = Some u → username u ≠ name ∧ email u ≠ mail) →
  let w1 := createAdminUser name mail (Some hashed) w in
  users w1 !! (users_seq w + 1)%Z =
    Some {| username := name; email := mail; password := hashed;
            role := admin; credits := 9999 |}
  ∧ createAdminUser name' mail' password' w1 = w1.
Proof.
  intros Hnone Hfree w1.
  assert (Hrow : users w1 !! (users_seq w + 1)%Z =
            Some {| username := name; email := mail; password := hashed;
                    role := admin; credits := 9999 |}).
  { subst w1. unfold createAdminUser.
    rewrite bool_decide_eq_false_2 by done. cbn [users].
    apply lookup_insert_eq. }
  split; [done|].
  unfold createAdminUser. rewrite bool_decide_eq_true_2; [done|].
  by eexists _, _.
Qed.

Lemma createAdminUser_once_witness :
  createAdminUser "root2" "root2@example.com" (Some "$2b$10$other")
    (createAdminUser "admin" "admin@example.com" (Some "$2b$10$secret")
       (sample_world 3 [] [] [])) =
  createAdminUser "admin" "admin@example.com" (Some "$2b$10$secret")
    (sample_world 3 [] [] []).
Proof.
  apply (createAdminUser_once "admin" "admin@example.com" "$2b$10$secret"
           (sample_world 3 [] [] []) "root2" "root2@example.com"
           (Some "$2b$10$other")).
  - intros (i & u & Hu & Hrole). cbn in Hu.
    apply lookup_singleton_Some in Hu as [_ <-]. discriminate.
  - intros i u Hu. cbn in Hu.
    apply lookup_singleton_Some in Hu as [_ <-]. split; discriminate.
Defined.

(** ** Keys of the users table *)

Lemma ids_below_seq_same_keys w w' :
  users_seq w' = users_seq w →
  (∀ i, is_Some (users w' !! i) → is_Some (users w !! i)) →
  ids_below_seq w → ids_below_seq w'.
Proof.
  intros Hseq Hkeys Hw i u Hu. rewrite Hseq.
  destruct (Hkeys i) as [u0 Hu0]; [by eexists|]. by apply (Hw i u0).
Qed.

Lemma is_Some_lookup_alter {A} (f : A → A) (m : gmap Z A) i j :
  is_Some (alter f i m !! j) → is_Some (m !! j).
Proof.
  rewrite lookup_alter. case_decide as Hij; [|done]. subst j.
  destruct (m !! i); [by eexists|]. cbn. by intros [? ?].
Qed.

Lemma ids_below_seq_insert_next u w w' :
  users w' = <[(users_seq w + 1)%Z := u]> (users w) →
  users_seq w' = (users_seq w + 1)%Z →
  ids_below_seq w → ids_below_seq w'.
Proof.
  intros Hu Hseq Hw i v. rewrite Hu, Hseq.
  intros [[<- _]|[_ Hi]]%lookup_insert_Some; [lia|].
  apply Hw in Hi. lia.
Qed.

Lemma exec_ids_below_seq w op : ids_below_seq w → ids_below_seq (exec w op).
Proof.
  intros Hw. destruct op as [hashed name mail pass|name mail adminPassword|
    now session text name|session amt|session requestId|session requestId|];
    cbn [exec].
  - destruct (register_cases hashed name mail pass w)
      as [[-> _]|(_ & _ & _ & _ & _ & Hu & Hseq)]; [done|].
    by eapply ids_below_seq_insert_next.
  - unfold createAdminUser. case_bool_decide; [done|].
    destruct adminPassword as [hashed|]; [|done].
    by eapply ids_below_seq_insert_next.
  - destruct session as [su|]; [|done].
    destruct (scan_outcome now su text name w)
      as [->|[->|[(c & _ & _ & ->)|(c & ms & ls & _ & _ & ->)]]]; cbn [snd];
      try done.
    + apply (ids_below_seq_same_keys w); [done| |done].
      intros i. apply is_Some_lookup_alter.
    + apply (ids_below_seq_same_keys w); [done| |done].
      intros i. apply is_Some_lookup_alter.
  - unfold requestCredits. destruct session as [su|]; [|done].
    destruct (_ || _); [done|]. by apply (ids_below_seq_same_keys w).
  - unfold approve. destruct (negb _); [done|].
    destruct (selectRequest requestId w) as [request|]; [|done].
    apply (ids_below_seq_same_keys w); [done| |done].
    intros i. apply is_Some_lookup_alter.
  - unfold reject. destruct (negb _); [done|].
    by apply (ids_below_seq_same_keys w).
  - apply (ids_below_seq_same_keys w); [done| |done].
    intros i. rewrite users_resetCreditsDaily, lookup_fmap.
    destruct (users w !! i); [by eexists|]. by intros [? ?].
Qed.

Lemma run_ops_ids_below_seq ops w :
  ids_below_seq w → ids_below_seq (run_ops ops w).
Proof.
  revert w. induction ops as [|op ops IH]; intros w Hw; [done|].
  cbn [run_ops foldl]. apply IH. by apply exec_ids_below_seq.
Qed.

(** X21. In a table built from the empty database by any sequence of
    operations, no key exceeds the counter, so a registration, which
    stores its row under the counter plus one, never replaces a row: every
    user has the row they had. *)
Theorem register_never_overwrites ops hashed name mail pass :
  let w := run_ops ops empty_world in
  ids_below_seq w
  ∧ ∀ i u, users w !! i = Some u →
      users (register hashed name mail pass w).2 !! i = Some u.
Proof.
  intros w.
  assert (Hids : ids_below_seq w).
  { apply run_ops_ids_below_seq. intros i u Hu. done. }
  split; [done|]. intros i u Hu.
  destruct (register_cases hashed name mail pass w)
    as [[-> _]|(_ & _ & _ & _ & _ & Husers & _)]; [done|].
  rewrite Husers, lookup_insert_ne; [done|].
  intros <-. apply Hids in Hu. lia.
Qed.

Lemma register_never_overwrites_witness :
  users
    (register "$2b$10$pw2" "dave" "dave@example.com" "pw2"
       (run_ops [OpRegister "$2b$10$pw" "carol" "carol@example.com" "pw"]
          empty_world)).2 !! 1%Z =
    Some {| username := "carol"; email := "carol@example.com";
            password := "$2b$10$pw"; role := user; credits := 20 |}.
Proof.
  apply (proj2 (register_never_overwrites
                  [OpRegister "$2b$10$pw" "carol" "carol@example.com" "pw"]
                  "$2b$10$pw2" "dave" "dave@example.com" "pw2")).
  by vm_compute.
Defined.

(** ** Scans in flight and the balance *)

Lemma selectCredits_deductCredit_ne uid j w :
  uid ≠ j → selectCredits j (deductCredit uid w) = selectCredits j w.
Proof. intros Hne. unfold selectCredits. by rewrite lookup_deductCredit_ne. Qed.

Lemma compareStep_users text name doc ms w :
  users (compareStep text name doc (ms, w)).2 = users w.
Proof. by rewrite compareStep_spec. Qed.

(** One step of one handler: the balance of [uid] goes down by one when
    the step is the deduction of a handler of [uid], and stays otherwise. *)
Lemma scan_step_balance uid now task w b :
  selectCredits uid w = Some b →
  ∃ b', selectCredits uid (scan_step now task w).2 = Some b'
    ∧ (b' ≤ b)%Z
    ∧ (b - (if may_deduct uid task then 1 else 0)
       ≤ b' - (if may_deduct uid (scan_step now task w).1 then 1 else 0))%Z.
Proof.
  intros Hb. destruct task as [su text name|su text name c|su text name c docId|
    su text name c docId|su text name c docId|su text name c docId docs ms|r];
    cbn [scan_step may_deduct].
  - destruct (selectCredits (session_id su) w) as [c|].
    + case_bool_decide; cbn [fst snd may_deduct]; exists b;
        (split; [done|]); case_bool_decide; lia.
    + cbn [fst snd may_deduct]. exists b. split; [done|]. case_bool_decide; lia.
  - cbn [fst snd may_deduct]. case_bool_decide as Hid.
    + subst uid. exists (b - 1)%Z. split; [|lia].
      by apply selectCredits_deductCredit.
    + exists b. split; [|lia]. by rewrite selectCredits_deductCredit_ne.
  - unfold writeFile. case_decide; cbn [fst snd may_deduct]; exists b;
      (split; [done|lia]).
  - cbn [fst snd may_deduct]. exists b. split; [done|lia].
  - cbn [fst snd may_deduct]. exists b. split; [done|lia].
  - destruct docs as [|doc docs]; cbn [fst snd may_deduct].
    + exists b. split; [done|lia].
    + pose proof (compareStep_users text name doc ms w) as Hu.
      destruct (compareStep text name doc (ms, w)) as [ms' w'].
      cbn [fst snd may_deduct] in *. exists b. split; [|lia].
      unfold selectCredits in *. by rewrite Hu.
  - cbn [fst snd may_deduct]. exists b. split; [done|lia].
Qed.

Lemma pending_deductions_insert uid tasks i task task' :
  tasks !! i = Some task →
  (pending_deductions uid (<[i := task']> tasks)
   = pending_deductions uid tasks
     - (if may_deduct uid task then 1 else 0)
     + (if may_deduct uid task' then 1 else 0))%Z.
Proof.
  revert i. induction tasks as [|t tasks IH]; intros i Hi; [done|].
  destruct i as [|i]; simpl in Hi; simpl.
  - injection Hi as ->. fold (pending_deductions uid tasks). lia.
  - change (foldr _ 0%Z ?l) with (pending_deductions uid l).
    rewrite (IH i Hi). lia.
Qed.

Lemma pool_step_balance uid tasks w turn b :
  selectCredits uid w = Some b →
  ∃ b', selectCredits uid (pool_step (tasks, w) turn).2 = Some b'
    ∧ (b' ≤ b)%Z
    ∧ (b - pending_deductions uid tasks
       ≤ b' - pending_deductions uid (pool_step (tasks, w) turn).1)%Z.
Proof.
  intros Hb. destruct turn as [i now]. unfold pool_step.
  destruct (tasks !! i) as [task|] eqn:Hi.
  - destruct (scan_step_balance uid now task w b Hb) as (b' & Hb' & Hle & Hpend).
    destruct (scan_step now task w) as [task' w']. cbn [fst snd] in *.
    exists b'. split_and!; [done|done|].
    rewrite (pending_deductions_insert uid tasks i task task' Hi). lia.
  - exists b. cbn [fst snd]. split_and!; [done|lia|lia].
Qed.

Lemma pending_deductions_nonneg uid tasks : (0 ≤ pending_deductions uid tasks)%Z.
Proof.
  induction tasks as [|t tasks IH]; [done|].
  change (pending_deductions uid (t :: tasks))
    with ((if may_deduct uid t then 1 else 0) + pending_deductions uid tasks)%Z.
  destruct (may_deduct uid t); lia.
Qed.

(** X22. However the handlers in flight are interleaved, the balance of a
    user never goes up and never falls by more than the number of that
    user's handlers that had not yet deducted at the start: a pool of [n]
    scans takes at most [n] credits, so an overdraft is at most [n - 1]
    below zero. *)
Theorem run_schedule_bounds_balance uid schedule tasks w b :
  selectCredits uid w = Some b →
  ∃ b', selectCredits uid (run_schedule schedule (tasks, w)).2 = Some b'
    ∧ (b - pending_deductions uid tasks ≤ b' ≤ b)%Z.
Proof.
  revert tasks w b. unfold run_schedule.
  induction schedule as [|turn schedule IH]; intros tasks w b Hb.
  - cbn. exists b. split; [done|].
    pose proof (pending_deductions_nonneg uid tasks). lia.
  - cbn [foldl].
    destruct (pool_step_balance uid tasks w turn b Hb) as (b1 & Hb1 & Hle & Hpend).
    destruct (pool_step (tasks, w) turn) as [tasks1 w1]. cbn [fst snd] in *.
    destruct (IH tasks1 w1 b1 Hb1) as (b' & Hb' & Hlow & Hup).
    exists b'. split; [done|]. lia.
Qed.

Lemma run_schedule_bounds_balance_witness :
  ∃ b', selectCredits 1
          (run_schedule race_schedule (race_tasks, sample_world 1 [] [] [])).2 = Some b'
    ∧ (1 - pending_deductions 1 race_tasks ≤ b' ≤ 1)%Z.
Proof.
  apply (run_schedule_bounds_balance 1 race_schedule race_tasks
           (sample_world 1 [] [] []) 1).
  reflexivity.
Defined.

(** ** The entries of a match list *)

Lemma scan_200_body now session text name w :
  status_code (scan now session text name w).1 = 200%Z →
  text ≠ ""
  ∧ ∃ c, body (scan now session text name w).1 =
      ScanResult now c name
        (omap (scanMatch text (scan now session text name w).2)
           (listExcept (savedFileName now name) (scan now session text name w).2)).
Proof.
  intros H200.
  destruct (scan_200_inv _ _ _ _ _ H200) as (su & c & -> & Ht & Hn & Hc & Hle & Hok).
  split; [done|].
  rewrite (scan_success now su text name w c) by done. by exists (c - 1)%Z.
Qed.



(** X6. In a scan that answers 200, every listed document whose stored
    body is the submitted text, character for character, is in the match
    list with 100.00%. *)
Theorem scan_reports_identical now session text name w doc :
  status_code (scan now session text name w).1 = 200%Z →
  doc ∈ listExcept (savedFileName now name) (scan now session text name w).2 →
  readFile (path_join uploadDir (meta_filePath doc))
    (scan now session text name w).2 = Some text →
  ∃ c matches,
    body (scan now session text name w).1 = ScanResult now c name matches
    ∧ {| match_fileName := meta_fileName doc; match_similarity := "100.00%" |}
        ∈ matches.
Proof.
  intros H200 Hdoc Hread.
  destruct (scan_200_body _ _ _ _ _ H200) as (Ht & c & Hbody).
  eexists c, _. split; [exact Hbody|].
  apply list_elem_of_omap. exists doc. split; [done|].
  by apply scanMatch_identical.
Qed.

Lemma scan_reports_identical_witness :
  ∃ c matches,
    body (scan 1000 (Some sample_session) "beta" "new.txt" office_world).1 =
      ScanResult 1000 c "new.txt" matches
    ∧ {| match_fileName := "b.txt"; match_similarity := "100.00%" |} ∈ matches.
Proof.
  apply (scan_reports_identical 1000 (Some sample_session) "beta" "new.txt"
           office_world {| meta_filePath := "2_b.txt"; meta_fileName := "b.txt" |}).
  - by vm_compute.
  - vm_compute. set_solver.
  - by vm_compute.
Defined.

(** X23. Two handlers of one user that both read the balance [c], at least
    1, before either deducts both get past the check and both deduct: after
    the four steps both are at their write and the balance is [c - 2]. *)
Theorem racing_scans_both_deduct su text1 name1 text2 name2 w c n1 n2 n3 n4 :
  selectCredits (session_id su) w = Some c → (1 ≤ c)%Z →
  run_schedule [(0, n1); (1, n2); (0, n3); (1, n4)]
    ([AwaitCredits su text1 name1; AwaitCredits su text2 name2], w) =
    ([AwaitWrite su text1 name1 c n3; AwaitWrite su text2 name2 c n4],
     deductCredit (session_id su) (deductCredit (session_id su) w))
  ∧ selectCredits (session_id su)
      (deductCredit (session_id su) (deductCredit (session_id su) w)) =
      Some (c - 2)%Z.
Proof. apply interleaved_checks_deduct_twice. Qed.

Lemma racing_scans_both_deduct_witness :
  selectCredits 1
    (deductCredit 1 (deductCredit 1 (sample_world 1 [] [] []))) = Some (-1)%Z.
Proof.
  apply (proj2 (racing_scans_both_deduct sample_session "hello" "a.txt"
                  "hello there" "b.txt" (sample_world 1 [] [] []) 1
                  1000 1000 1001 1002 eq_refl (Z.le_refl 1))).
Defined.
